(** * Generalized Rock-Paper-Scissors ([grps.py]): model and verified properties

    The class [GRPS] of [grps.py] is embedded method by method.  Integers are
    Python's unbounded [int] (here [Z]); the name tuple is a [list string];
    the verb dictionary, keyed by index pairs, is a [gmap (Z * Z) string].
    Exceptions are explicit: every method that can raise returns a [res].
    Setters, which assign to [self], are state transformers that also return
    the state they leave behind when they raise. *)

From stdpp Require Import base numbers list strings gmap fin_maps fin_sets.
From stdpp Require Import pretty sorting.

Open Scope Z_scope.

(** ** Python values, exceptions and built-ins used by the class *)

Module Py.

Inductive exn : Type :=
| AssertionError
| Exception_ (msg : string)
| KeyError
| IndexError
| ValueError
| TypeError
| OverflowError.

Inductive res (A : Type) : Type :=
| Ok (a : A)
| Raise (e : exn).
Arguments Ok {A} a.
Arguments Raise {A} e.

Definition raises {A} (r : res A) : Prop :=
  match r with Ok _ => False | Raise _ => True end.

Definition returns {A} (r : res A) : Prop :=
  match r with Ok _ => True | Raise _ => False end.

#[global] Instance res_ret : MRet res := λ A a, Ok a.
#[global] Instance res_bind : MBind res := λ A B f m,
  match m with Ok a => f a | Raise e => Raise e end.
#[global] Instance res_fmap : FMap res := λ A B f m,
  match m with Ok a => Ok (f a) | Raise e => Raise e end.

(** [assert c] *)
Definition assert_ (c : bool) : res unit :=
  if c then Ok () else Raise AssertionError.

(** [len(l)] *)
Definition len {A} (l : list A) : Z := Z.of_nat (length l).

(** [range(m)] *)
Definition range (m : Z) : list Z := seqZ 0 m.

(** [itertools.product(l, k)]: row-major, the rightmost index runs fastest. *)
Definition product {A B} (l : list A) (k : list B) : list (A * B) :=
  a ← l; (λ b, (a, b)) <$> k.

(** [[x for x in l if f(x)]] where the test itself may raise. *)
Fixpoint comprehension {A} (f : A → res bool) (l : list A) : res (list A) :=
  match l with
  | [] => Ok []
  | x :: l' =>
      b ← f x;
      r ← comprehension f l';
      Ok (if b : bool then x :: r else r)
  end.

(** [list(map(f, l))] where [f] may raise. *)
Fixpoint map_ {A B} (f : A → res B) (l : list A) : res (list B) :=
  match l with
  | [] => Ok []
  | x :: l' => y ← f x; r ← map_ f l'; Ok (y :: r)
  end.

(** [l[i]] on a tuple or list: negative indices count from the end. *)
Definition getitem {A} (l : list A) (i : Z) : res A :=
  let j := if bool_decide (i < 0) then i + len l else i in
  if bool_decide (j < 0) then Raise IndexError
  else match l !! Z.to_nat j with
       | Some x => Ok x
       | None => Raise IndexError
       end.

(** [l.index(x)]: position of the first occurrence. *)
Fixpoint index `{EqDecision A} (l : list A) (x : A) : res Z :=
  match l with
  | [] => Raise ValueError
  | y :: l' => if decide (y = x) then Ok 0 else Z.succ <$> index l' x
  end.

(** [x in l] *)
Definition contains `{EqDecision A} (l : list A) (x : A) : bool :=
  bool_decide (x ∈ l).

(** [len(set(l))] *)
Definition len_set (l : list string) : Z :=
  Z.of_nat (size (list_to_set (C := gset string) l)).

(** [d[k]] on a dictionary. *)
Definition dict_getitem `{Countable K} {V} (d : gmap K V) (k : K) : res V :=
  match d !! k with Some v => Ok v | None => Raise KeyError end.

(** [random.randint(a, b)]: some integer of [a..b], chosen by the
    generator; [r] is the entropy the generator consumes. *)
Definition randint (a b r : Z) : res Z :=
  if bool_decide (b < a) then Raise ValueError
  else Ok (a + r mod (b - a + 1)).

(** [int(a / 2)] for an integer [a].  [/] is true division: the exact
    quotient is rounded to the nearest binary64 value, ties to the even
    significand, and [OverflowError] is raised past the largest double;
    [int] then drops the fractional part.  Below [2^53] the quotient is
    representable and nothing is lost. *)
Definition round_half_even (q r half : Z) : Z :=
  if bool_decide (r < half) then q
  else if bool_decide (half < r) then q + 1
  else if Z.even q then q else q + 1.

Definition int_truediv2_nonneg (a : Z) : res Z :=
  if bool_decide (a < 2 ^ 53) then Ok (a `quot` 2)
  else
    let s := Z.log2 a - 52 in
    let q := round_half_even (a ≫ s) (a `mod` 2 ^ s) (2 ^ (s - 1)) in
    let v := q * 2 ^ (s - 1) in
    if bool_decide (v < 2 ^ 1024) then Ok v else Raise OverflowError.

Definition int_truediv2 (a : Z) : res Z :=
  if bool_decide (0 ≤ a) then int_truediv2_nonneg a
  else Z.opp <$> int_truediv2_nonneg (- a).

End Py.
Import Py.

(** ** The class *)

Abbreviation _EDGE := (Z * Z)%type.
Abbreviation _NAMED_EDGE := (string * string)%type.

Record GRPS : Type := mkGRPS {
  n : Z;
  ne : Z;
  _edge_verbs : option (gmap (Z * Z) string);
  _node_names : option (list string)
}.

(** [GRPS.__init__]: [ne] is computed before the two assertions on [n]. *)
Definition __init__ (n0 : Z) : res GRPS :=
  ne0 ← int_truediv2 (n0 * (n0 - 1));
  assert_ (bool_decide (n0 > 2));;
  assert_ (bool_decide (n0 `mod` 2 = 1));;
  Ok {| n := n0; ne := ne0; _edge_verbs := None; _node_names := None |}.

(** [GRPS._resolve_outcome] *)
Definition _resolve_outcome (self : GRPS) (n0 n1 : Z) : res Z :=
  assert_ (bool_decide (0 ≤ n0 ≤ n self - 1));;
  assert_ (bool_decide (0 ≤ n1 ≤ n self - 1));;
  if bool_decide (n0 = n1) then Ok (-1)
  else if bool_decide (n0 `mod` 2 = n1 `mod` 2) then Ok (Z.max n0 n1)
  else Ok (Z.min n0 n1).

(** [GRPS.get_edge_indices] *)
Definition get_edge_indices (self : GRPS) : res (list _EDGE) :=
  let f (elem : Z * Z) : res bool :=
    outcome ← _resolve_outcome self elem.1 elem.2;
    Ok (bool_decide (elem.1 = outcome)) in
  comprehension f (product (range (n self)) (range (n self))).

(** [GRPS.get_named_edge_indices] *)
Definition get_named_edge_indices (self : GRPS)
  : res (list (_EDGE * _NAMED_EDGE)) :=
  match _node_names self with
  | None => Raise (Exception_ "node_names are None")
  | Some names =>
      idx ← get_edge_indices self;
      map_ (λ p : Z * Z,
              a ← getitem names p.1;
              b ← getitem names p.2;
              Ok (p, (a, b))) idx
  end.

(** [GRPS.node_names] (setter).  The result pairs what the call returned
    or raised with the object as the call leaves it. *)
Definition node_names_setter (value : list string) (self : GRPS)
  : res unit * GRPS :=
  match assert_ (bool_decide (len value = n self)) with
  | Raise e => (Raise e, self)
  | Ok _ =>
      match assert_ (bool_decide (len_set value = len value)) with
      | Raise e => (Raise e, self)
      | Ok _ =>
          (Ok (), {| n := n self; ne := ne self;
                     _edge_verbs := _edge_verbs self;
                     _node_names := Some value |})
      end
  end.

(** [GRPS.edge_verbs] (setter) *)
Definition edge_verbs_setter (value : gmap (Z * Z) string) (self : GRPS)
  : res unit * GRPS :=
  match assert_ (bool_decide (Z.of_nat (size value) = ne self)) with
  | Raise e => (Raise e, self)
  | Ok _ =>
      (Ok (), {| n := n self; ne := ne self;
                 _edge_verbs := Some value;
                 _node_names := _node_names self |})
  end.

(** [GRPS._sample_move] *)
Definition _sample_move (self : GRPS) (r : Z) : res Z :=
  randint 0 (n self - 1) r.

(** [GRPS._play_int] *)
Definition _play_int (self : GRPS) (i : Z) (i2 : option Z) (r : Z)
  : res (Z * (Z * Z)) :=
  assert_ (bool_decide (0 ≤ i < n self));;
  i2' ← match i2 with
        | None => _sample_move self r
        | Some j => assert_ (bool_decide (0 ≤ j < n self));; Ok j
        end;
  outcome ← _resolve_outcome self i i2';
  Ok (outcome, (i, i2')).

(** [GRPS._play_str] *)
Definition _play_str (self : GRPS) (node : string) (node2 : option string)
    (r : Z) : res (Z * (Z * Z)) :=
  match _node_names self with
  | None => Raise TypeError
  | Some names =>
      assert_ (contains names node);;
      match node2 with
      | Some nd2 =>
          assert_ (contains names nd2);;
          i ← index names node;
          j ← index names nd2;
          _play_int self i (Some j) r
      | None =>
          i ← index names node;
          _play_int self i None r
      end
  end.

(** A move is an [int] or a [str]. *)
Inductive move_t : Type :=
| Int (i : Z)
| Str (s : string).

(** What [play] hands back: the tuple of [_play_int], or [None]. *)
Inductive retval : Type :=
| Tuple (outcome : Z) (moves : Z * Z)
| PyNone.

(** The message [play] builds in its [str] branch. *)
Definition play_msg (self : GRPS) (move : string) (move2 : option move_t)
    (r : Z) : res string :=
  node2 ← match move2 with
          | None => Ok None
          | Some (Str s) => Ok (Some s)
          | Some (Int _) => Raise AssertionError
          end;
  assert_ (bool_decide (is_Some (_node_names self)));;
  assert_ (bool_decide (is_Some (_edge_verbs self)));;
  match _node_names self, _edge_verbs self with
  | Some names, Some verbs =>
      '(result, (player_idx, pc_idx)) ← _play_str self move node2 r;
      player ← getitem names player_idx;
      pc ← getitem names pc_idx;
      if bool_decide (result = -1) then
        Ok (pc +:+ " vs. " +:+ pc +:+ ", tie!")
      else if bool_decide (result = player_idx) then
        verb ← dict_getitem verbs (player_idx, pc_idx);
        match move2 with
        | None => Ok (player +:+ " " +:+ verb +:+ " " +:+ pc +:+ ", you win!")
        | Some _ =>
            Ok (player +:+ " " +:+ verb +:+ " " +:+ pc +:+ ", player1 wins!")
        end
      else
        verb ← dict_getitem verbs (pc_idx, player_idx);
        match move2 with
        | None => Ok (pc +:+ " " +:+ verb +:+ " " +:+ player +:+ ", you lose!")
        | Some _ =>
            Ok (pc +:+ " " +:+ verb +:+ " " +:+ player +:+ ", player2 wins!")
        end
  | _, _ => Raise AssertionError
  end.

(** [GRPS.play]: the value returned (or the exception raised) and the lines
    written to standard output.  The [int] branch returns the tuple of
    [_play_int] and prints nothing; the [str] branch prints the message and
    falls off the end of the function. *)
Definition play (self : GRPS) (move : move_t) (move2 : option move_t)
    (r : Z) : res retval * list string :=
  match move with
  | Int i =>
      (i2 ← match move2 with
            | None => Ok None
            | Some (Int j) => Ok (Some j)
            | Some (Str _) => Raise AssertionError
            end;
       '(outcome, moves) ← _play_int self i i2 r;
       Ok (Tuple outcome moves), [])
  | Str s =>
      match play_msg self s move2 r with
      | Ok msg => (Ok PyNone, [msg])
      | Raise e => (Raise e, [])
      end
  end.

(** [GRPS.classic] *)
Definition classic_names : list string := ["scissors"; "paper"; "rock"].
Definition classic_verbs : gmap (Z * Z) string :=
  <[(0, 1) := "cuts"]> (<[(1, 2) := "wraps"]> (<[(2, 0) := "smashes"]> ∅)).

(** Statements of a factory, run in sequence on the fresh object; an
    exception stops the factory. *)
Definition then_ (s : GRPS → res unit * GRPS) (g : res GRPS) : res GRPS :=
  match g with
  | Raise e => Raise e
  | Ok g0 => match s g0 with
             | (Ok _, g1) => Ok g1
             | (Raise e, _) => Raise e
             end
  end.

Definition classic : res GRPS :=
  then_ (edge_verbs_setter classic_verbs)
    (then_ (node_names_setter classic_names) (__init__ 3)).

(** [GRPS.spock_version]: the verbs of [classic()] overridden and extended
    by the seven new entries ([{**a, **b}] lets [b] win on a shared key). *)
Definition spock_names : list string :=
  ["scissors"; "paper"; "rock"; "lizard"; "spock"].
Definition spock_extra_verbs : gmap (Z * Z) string :=
  <[(0, 3) := "cuts"]> (<[(1, 4) := "proves"]> (<[(2, 3) := "smashes"]>
  (<[(3, 1) := "eats"]> (<[(3, 4) := "poisons"]> (<[(4, 0) := "breaks"]>
  (<[(4, 2) := "vaporizes"]> ∅)))))).

Definition spock_version : res GRPS :=
  c ← classic;
  match _edge_verbs c with
  | None => Raise TypeError
  | Some cv =>
      then_ (edge_verbs_setter (spock_extra_verbs ∪ cv))
        (then_ (node_names_setter spock_names) (__init__ 5))
  end.


(** ** The games a program can hold

    A game comes out of the constructor and is afterwards only touched by the
    two setters, whether they return or raise. *)

Inductive reachable : GRPS → Prop :=
| reach_init n0 g : __init__ n0 = Ok g → reachable g
| reach_names value g r g' :
    reachable g → node_names_setter value g = (r, g') → reachable g'
| reach_verbs value g r g' :
    reachable g → edge_verbs_setter value g = (r, g') → reachable g'.

(** The size the constructor accepts: odd and at least three. *)
Definition valid_size (N : Z) : Prop := N > 2 ∧ N `mod` 2 = 1.

(** The counter relation the resolver induces on a pair of indices:
    the first component wins. *)
Definition beats (e : Z * Z) : Prop :=
  e.1 ≠ e.2 ∧
  ((e.1 `mod` 2 = e.2 `mod` 2 ∧ e.2 < e.1) ∨
   (e.1 `mod` 2 ≠ e.2 `mod` 2 ∧ e.1 < e.2)).

#[global] Instance beats_dec e : Decision (beats e).
Proof. unfold beats. apply _. Defined.

(** Degrees of a node in a list of directed edges. *)
Definition out_degree (E : list (Z * Z)) (i : Z) : nat :=
  length (filter (λ e : Z * Z, e.1 = i) E).
Definition in_degree (E : list (Z * Z)) (i : Z) : nat :=
  length (filter (λ e : Z * Z, e.2 = i) E).

(** The value [_resolve_outcome] returns for a tie. *)
Definition tie : Z := -1.

(** The list [get_edge_indices] computes, as a plain filter. *)
Definition edges (N : Z) : list (Z * Z) :=
  filter beats (product (range N) (range N)).

(** What the constructor and the setters establish and keep. *)
Definition names_ok (g : GRPS) : Prop :=
  match _node_names g with
  | Some names => len names = n g ∧ NoDup names
  | None => True
  end.

Definition verbs_ok (g : GRPS) : Prop :=
  match _edge_verbs g with
  | Some verbs => Z.of_nat (size verbs) = ne g
  | None => True
  end.

Definition well_formed (g : GRPS) : Prop :=
  valid_size (n g) ∧ int_truediv2 (n g * (n g - 1)) = Ok (ne g) ∧
  names_ok g ∧ verbs_ok g.

(** The object after a successful assignment to one of its two optional
    attributes. *)
Definition with_names (g : GRPS) (value : list string) : GRPS :=
  {| n := n g; ne := ne g; _edge_verbs := _edge_verbs g;
     _node_names := Some value |}.
Definition with_verbs (g : GRPS) (value : gmap (Z * Z) string) : GRPS :=
  {| n := n g; ne := ne g; _edge_verbs := Some value;
     _node_names := _node_names g |}.

(** A dictionary of [k] entries none of whose keys need be a counter: the
    keys are [(0, 0)], [(0, 1)], ..., [(0, k - 1)]. *)
Definition row_zero_verbs (k : Z) : gmap (Z * Z) string :=
  list_to_map ((λ j, ((0, j), "x")) <$> seqZ 0 k).

(** A number of entries no dictionary in memory reaches: at 24 bytes an
    entry it would need more than [2^56] bytes. *)
Definition dict_capacity : Z := 2 ^ 52.

(** Both even or both odd. *)
Definition same_parity (a b : Z) : Prop :=
  (Z.Even a ∧ Z.Even b) ∨ (Z.Odd a ∧ Z.Odd b).

(** A game of size [N] with nothing configured, whatever its stored edge
    count. *)
Definition bare (N k : Z) : GRPS :=
  {| n := N; ne := k; _edge_verbs := None; _node_names := None |}.

(** The objects the two factories return. *)
Definition classic_game : GRPS :=
  with_verbs (with_names (bare 3 3) classic_names) classic_verbs.
Definition spock_game : GRPS :=
  with_verbs (with_names (bare 5 10) spock_names)
    (spock_extra_verbs ∪ classic_verbs).

(** A size-3 game whose three verbs are keyed by [(0, 1)], [(1, 2)] and
    [(0, 2)]: the right number of keys, but [(2, 0)] is missing. *)
Definition skewed_verbs : gmap (Z * Z) string :=
  <[(0, 1) := "x"]> (<[(1, 2) := "y"]> (<[(0, 2) := "z"]> ∅)).
Definition skewed_game : GRPS :=
  with_verbs (with_names (bare 3 3) ["a"; "b"; "c"]) skewed_verbs.

(** [play] hands a match result back to its caller. *)
Definition returns_match_result (out : res retval * list string) : Prop :=
  ∃ outcome moves, out.1 = Ok (Tuple outcome moves).

(** A factory's game is consistent for size [N]: its verbs are keyed by
    exactly the enumerated edges, its names are [N] distinct strings, and a
    match between two distinct names finds the verb of the winning edge and
    prints it between the winner and the loser. *)
Definition factory_consistent (factory : res GRPS) (N : Z) : Prop :=
  ∃ g names verbs E,
    factory = Ok g ∧ n g = N ∧
    _node_names g = Some names ∧ _edge_verbs g = Some verbs ∧
    get_edge_indices g = Ok E ∧
    dom verbs = list_to_set E ∧
    len names = N ∧ NoDup names ∧
    ∀ a b r, a ∈ names → b ∈ names → a ≠ b →
      ∃ w l verb winner loser suffix,
        (w, l) ∈ E ∧ verbs !! (w, l) = Some verb ∧
        getitem names w = Ok winner ∧ getitem names l = Ok loser ∧
        play g (Str a) (Some (Str b)) r
        = (Ok PyNone, [winner +:+ " " +:+ verb +:+ " " +:+ loser +:+ suffix]) ∧
        ((winner = a ∧ loser = b ∧ suffix = ", player1 wins!") ∨
         (winner = b ∧ loser = a ∧ suffix = ", player2 wins!")).

(** ** The rest of the class *)

(** [GRPS.the_office_version]; no key occurs twice in the dictionary
    display. *)
Definition office_names : list string :=
  ["Jim"; "Dwight"; "Michael"; "Pam"; "Kevin"; "Andy"; "Angela"].
Definition office_verbs : gmap (Z * Z) string :=
  list_to_map
    [((0, 1), "fools"); ((0, 3), "marries"); ((0, 5), "triggers");
     ((1, 2), "annoys"); ((1, 4), "insults"); ((1, 6), "courts");
     ((2, 0), "ruins sale for"); ((2, 3), "sexually harasses");
     ((2, 5), "ignores"); ((3, 1), "becomes friends with");
     ((3, 4), "is disgusted by"); ((3, 6), "retaliates");
     ((4, 0), "annoys"); ((4, 2), "wants cake from");
     ((4, 5), "teams up with"); ((5, 1), "steals Angels from");
     ((5, 3), "snobs"); ((5, 6), "sings to"); ((6, 0), "insults");
     ((6, 2), "is mad at"); ((6, 4), "is disgusted by")].

Definition the_office_version : res GRPS :=
  then_ (edge_verbs_setter office_verbs)
    (then_ (node_names_setter office_names) (__init__ 7)).

(** The loop of [get_nx_edge_labels]: [out[v] = ev[(k[0], k[1])]] for each
    item [(k, v)]; subscripting [None] is a [TypeError]. *)
Fixpoint labels_loop (ev : option (gmap (Z * Z) string))
    (ei : list (_EDGE * _NAMED_EDGE)) (out : gmap (string * string) string)
  : res (gmap (string * string) string) :=
  match ei with
  | [] => Ok out
  | (k, v) :: ei' =>
      verb ← match ev with
             | None => Raise TypeError
             | Some d => dict_getitem d (k.1, k.2)
             end;
      labels_loop ev ei' (<[v := verb]> out)
  end.

(** [GRPS.get_nx_edge_labels] *)
Definition get_nx_edge_labels (self : GRPS)
  : res (gmap (string * string) string) :=
  ei ← get_named_edge_indices self;
  labels_loop (_edge_verbs self) ei ∅.

(** The console of [edge_verb_builder]: what is written to standard output,
    by [print] (a line) or as the prompt of [input], and the lines still
    waiting on standard input.  [input] on an exhausted input raises
    [EOFError]. *)
Inductive out_event : Type :=
| Printed (line : string)
| Prompted (prompt : string).

Inductive io_exn : Type :=
| EOFError
| PyExn (e : exn).

Inductive io_res (A : Type) : Type :=
| IoOk (a : A)
| IoRaise (e : io_exn).
Arguments IoOk {A} a.
Arguments IoRaise {A} e.

(** The loop of [edge_verb_builder] over the named edges, with the
    counter [itr], the dictionary [dct] under construction and the
    console. *)
Fixpoint builder_loop (ne_ : Z) (ei : list (_EDGE * _NAMED_EDGE)) (itr : Z)
    (dct : gmap (Z * Z) string) (stdin : list string) (out : list out_event)
  : io_res (gmap (Z * Z) string) * list string * list out_event :=
  match ei with
  | [] => (IoOk dct, stdin, out)
  | ((i, j), (n0, n1)) :: ei' =>
      let itr := itr + 1 in
      let out := out ++ [Printed ("edge #" +:+ pretty itr +:+ "/" +:+
                                  pretty ne_ +:+ ": " +:+ pretty i +:+
                                  " -> " +:+ pretty j +:+ ", " +:+ n0 +:+
                                  " vs. " +:+ n1)] in
      let out := out ++ [Prompted ("enter the verb for " +:+ n0 +:+
                                   " -> " +:+ n1)] in
      match stdin with
      | [] => (IoRaise EOFError, [], out)
      | line :: stdin' =>
          builder_loop ne_ ei' itr (<[(i, j) := line]> dct) stdin' out
      end
  end.

(** [GRPS.edge_verb_builder]: what the call returns or raises, the object,
    the input left over and the output produced. *)
Definition edge_verb_builder (self : GRPS) (stdin : list string)
  : io_res unit * GRPS * list string * list out_event :=
  match _node_names self with
  | None =>
      (IoRaise (PyExn (Exception_ "please define the list of node names first")),
       self, stdin, [])
  | Some _ =>
      match get_named_edge_indices self with
      | Raise e => (IoRaise (PyExn e), self, stdin, [])
      | Ok ei =>
          match builder_loop (ne self) ei 0 ∅ stdin [] with
          | (IoRaise e, stdin', out) => (IoRaise e, self, stdin', out)
          | (IoOk dct, stdin', out) =>
              match edge_verbs_setter dct self with
              | (Raise e, self') => (IoRaise (PyExn e), self', stdin', out)
              | (Ok _, self') =>
                  (IoOk (), self', stdin',
                   out ++ [Printed "Your game is now complete."])
              end
          end
      end
  end.

(** Row-major order on index pairs. *)
Definition row_major (e1 e2 : Z * Z) : Prop :=
  e1.1 < e2.1 ∨ (e1.1 = e2.1 ∧ e1.2 < e2.2).

(** What [edge_verb_builder] writes for the [k]-th named edge (counting
    from 0). *)
Definition builder_events (ne_ : Z) (k : nat) (p : (Z * Z) * (string * string))
  : list out_event :=
  [Printed ("edge #" +:+ pretty (Z.of_nat k + 1) +:+ "/" +:+ pretty ne_ +:+
            ": " +:+ pretty p.1.1 +:+ " -> " +:+ pretty p.1.2 +:+ ", " +:+
            p.2.1 +:+ " vs. " +:+ p.2.2);
   Prompted ("enter the verb for " +:+ p.2.1 +:+ " -> " +:+ p.2.2)].

(** The pair of names [get_named_edge_indices] attaches to an edge. *)
Definition named (names : list string) (e : Z * Z) : string * string :=
  (names !!! Z.to_nat e.1, names !!! Z.to_nat e.2).

(** The dictionary [edge_verb_builder] ends up with: starting from
    [dct], the keys receive the input lines in turn. *)
Definition filled (dct : gmap (Z * Z) string) (keys : list (Z * Z))
    (lines : list string) : gmap (Z * Z) string :=
  foldl (λ d p, <[p.1 := p.2]> d) dct (zip keys lines).

(** The game [the_office_version] returns. *)
Definition office_game : GRPS :=
  with_verbs (with_names (bare 7 21) office_names) office_verbs.

(** The second move of a name-form [play], its index [j] and its name
    [b]: either the name [b] was given and is found at [j], or nothing was
    given and [j] was drawn, [b] being the name stored at [j]. *)
Definition second_move (self : GRPS) (names : list string)
    (move2 : option move_t) (r j : Z) (b : string) : Prop :=
  match move2 with
  | Some (Str s) => s = b ∧ index names b = Ok j
  | None => _sample_move self r = Ok j ∧ getitem names j = Ok b
  | Some (Int _) => False
  end.

(** ** Generic facts about the built-ins *)

Section builtins.
Context {A B : Type}.

Lemma bind_Ok (x : res A) (f : A → res B) (b : B) :
  x ≫= f = Ok b ↔ ∃ a, x = Ok a ∧ f a = Ok b.
Proof.
  destruct x as [a|e]; simpl; split.
  - intros Hf. exists a. done.
  - intros (a' & [= <-] & Hf). done.
  - intros [=].
  - intros (a' & [=] & _).
Qed.

Lemma assert_Ok (c : bool) : assert_ c = Ok () ↔ c = true.
Proof. destruct c; simpl; split; intros; done. Qed.

Lemma assert_true (P : Prop) `{Decision P} :
  P → assert_ (bool_decide P) = Ok ().
Proof. intros HP. rewrite bool_decide_eq_true_2; done. Qed.

Lemma assert_false (P : Prop) `{Decision P} :
  ¬ P → assert_ (bool_decide P) = Raise AssertionError.
Proof. intros HP. rewrite bool_decide_eq_false_2; done. Qed.

Lemma comprehension_filter (f : A → res bool) (P : A → Prop)
    `{∀ x, Decision (P x)} (l : list A) :
  (∀ x, x ∈ l → f x = Ok (bool_decide (P x))) →
  comprehension f l = Ok (filter P l).
Proof.
  induction l as [|x l IH]; intros Hf; [done|].
  simpl. rewrite (Hf x) by left. simpl.
  rewrite IH by (intros y Hy; apply Hf; by right). simpl.
  rewrite filter_cons. by destruct (decide (P x)) as [HP|HP];
    [rewrite bool_decide_eq_true_2 | rewrite bool_decide_eq_false_2].
Qed.

Lemma map__fmap (f : A → res B) (h : A → B) (l : list A) :
  (∀ x, x ∈ l → f x = Ok (h x)) → map_ f l = Ok (h <$> l).
Proof.
  induction l as [|x l IH]; intros Hf; [done|].
  simpl. rewrite (Hf x) by left. simpl.
  rewrite IH by (intros y Hy; apply Hf; by right). done.
Qed.

Lemma product_cons (a : A) (l : list A) (k : list B) :
  product (a :: l) k = ((λ b, (a, b)) <$> k) ++ product l k.
Proof. done. Qed.

Lemma elem_of_product (l : list A) (k : list B) (a : A) (b : B) :
  (a, b) ∈ product l k ↔ a ∈ l ∧ b ∈ k.
Proof.
  unfold product. rewrite list_elem_of_bind. split.
  - intros (a' & Hab & Ha'). apply list_elem_of_fmap in Hab as (b' & [= -> ->] & Hb).
    done.
  - intros [Ha Hb]. exists a. split; [|done].
    apply list_elem_of_fmap. by exists b.
Qed.

Lemma length_filter_pair (P : A * B → Prop) `{∀ x, Decision (P x)}
    (a : A) (k : list B) :
  length (filter P ((λ b, (a, b)) <$> k))
  = length (filter (λ b, P (a, b)) k).
Proof.
  induction k as [|b k IH]; [done|].
  rewrite fmap_cons, !filter_cons.
  destruct (decide (P (a, b))); simpl; by rewrite IH.
Qed.

(** Counting in a product: row by row. *)
Lemma length_filter_product (P : A * B → Prop) `{∀ x, Decision (P x)}
    (l : list A) (k : list B) :
  length (filter P (product l k))
  = sum_list ((λ a, length (filter (λ b, P (a, b)) k)) <$> l).
Proof.
  induction l as [|a l IH]; [done|].
  rewrite product_cons, filter_app, length_app, length_filter_pair, IH.
  done.
Qed.

End builtins.

Lemma getitem_lookup {A} (l : list A) (i : Z) :
  0 ≤ i < len l → ∃ x, getitem l i = Ok x ∧ l !! Z.to_nat i = Some x.
Proof.
  unfold getitem, len. intros Hi.
  rewrite (bool_decide_eq_false_2 (i < 0)) by lia. simpl.
  rewrite (bool_decide_eq_false_2 (i < 0)) by lia.
  destruct (lookup_lt_is_Some_2 l (Z.to_nat i)) as [x Hx]; [lia|].
  rewrite Hx. eauto.
Qed.

(** ** Counting helpers *)

Section counting.
Context {A : Type}.

Lemma filter_none (P : A → Prop) `{∀ x, Decision (P x)} (l : list A) :
  (∀ x, x ∈ l → ¬ P x) → filter P l = [].
Proof.
  induction l as [|x l IH]; intros Hl; [done|].
  rewrite filter_cons_False by (apply Hl; left).
  apply IH. intros y Hy. apply Hl. by right.
Qed.

Lemma sum_list_const (h : A → nat) (c : nat) (l : list A) :
  (∀ a, a ∈ l → h a = c) → sum_list (h <$> l) = (length l * c)%nat.
Proof.
  induction l as [|a l IH]; intros Hl; [done|].
  csimpl. rewrite (Hl a) by left. rewrite IH; [done|].
  intros b Hb. apply Hl. by right.
Qed.

Lemma sum_list_single (h : A → nat) (i : A) (l : list A) :
  NoDup l → i ∈ l → (∀ a, a ∈ l → a ≠ i → h a = 0%nat) →
  sum_list (h <$> l) = h i.
Proof.
  induction 1 as [|a l Ha Hnd IH]; intros Hi Hz.
  - by apply elem_of_nil in Hi.
  - csimpl. apply elem_of_cons in Hi as [<-|Hi].
    + rewrite (sum_list_const h 0 l); [lia|].
      intros b Hb. apply Hz; [by right|]. intros ->. done.
    + rewrite (Hz a); [|left|by intros ->]. simpl. apply IH; [done|].
      intros b Hb. apply Hz. by right.
Qed.

Lemma sum_list_indicator (Q : A → Prop) `{∀ x, Decision (Q x)} (l : list A) :
  sum_list ((λ a, if decide (Q a) then 1%nat else 0%nat) <$> l)
  = length (filter Q l).
Proof.
  induction l as [|a l IH]; [done|].
  csimpl. rewrite filter_cons. destruct (decide (Q a)); simpl; lia.
Qed.

Lemma length_filter_at `{EqDecision A} (Q : A → Prop) `{∀ x, Decision (Q x)}
    (i : A) (l : list A) :
  NoDup l → i ∈ l →
  length (filter (λ b, b = i ∧ Q b) l)
  = if decide (Q i) then 1%nat else 0%nat.
Proof.
  induction 1 as [|a l Ha Hnd IH]; intros Hi.
  - by apply elem_of_nil in Hi.
  - rewrite filter_cons. apply elem_of_cons in Hi as [<-|Hi].
    + rewrite (filter_none _ l) by (intros b Hb [-> _]; done).
      destruct (decide (Q i)).
      * rewrite decide_True by done. done.
      * rewrite decide_False by (intros [_ ?]; done). done.
    + rewrite decide_False by (intros [-> _]; done). by apply IH.
Qed.

End counting.

Lemma seqZ_snoc (m : nat) :
  seqZ 0 (Z.of_nat (S m)) = seqZ 0 (Z.of_nat m) ++ [Z.of_nat m].
Proof.
  unfold seqZ. rewrite !Nat2Z.id, seq_S, fmap_app. simpl.
  by rewrite Z.add_0_r.
Qed.

Ltac Zify.zify_post_hook ::= Z.to_euclidean_division_equations.

(** Among the indices below [m], how many does [i] beat, and how many
    beat [i]. *)
Lemma count_beaten_below (i : Z) (m : nat) :
  0 ≤ i →
  Z.of_nat (length (filter (λ j, beats (i, j)) (seqZ 0 (Z.of_nat m))))
  = if decide (Z.of_nat m ≤ i)
    then (Z.of_nat m + 1 - i `mod` 2) `div` 2
    else i `div` 2 + (Z.of_nat m - i) `div` 2.
Proof.
  intros Hi. induction m as [|m IH].
  - simpl. rewrite decide_True by lia. lia.
  - rewrite seqZ_snoc, filter_app, length_app, Nat2Z.inj_add, IH.
    clear IH. cbn [filter list_filter]. unfold beats at 1. simpl.
    repeat case_decide; simpl; lia.
Qed.

Lemma count_beating_below (i : Z) (m : nat) :
  0 ≤ i →
  Z.of_nat (length (filter (λ a, beats (a, i)) (seqZ 0 (Z.of_nat m))))
  = if decide (Z.of_nat m ≤ i)
    then Z.of_nat m - (Z.of_nat m + 1 - i `mod` 2) `div` 2
    else (i + 1) `div` 2 + (Z.of_nat m - i - 1) `div` 2.
Proof.
  intros Hi. induction m as [|m IH].
  - simpl. rewrite decide_True by lia. lia.
  - rewrite seqZ_snoc, filter_app, length_app, Nat2Z.inj_add, IH.
    clear IH. cbn [filter list_filter]. unfold beats at 1. simpl.
    repeat case_decide; simpl; lia.
Qed.

(** ** The resolver and the edge enumeration *)

Lemma resolve_outcome_in_range (self : GRPS) (n0 n1 : Z) :
  0 ≤ n0 < n self → 0 ≤ n1 < n self →
  _resolve_outcome self n0 n1
  = Ok (if decide (n0 = n1) then tie
        else if decide (n0 `mod` 2 = n1 `mod` 2) then Z.max n0 n1
        else Z.min n0 n1).
Proof.
  intros H0 H1. unfold _resolve_outcome.
  rewrite !assert_true by lia. simpl.
  repeat case_bool_decide; repeat case_decide; done.
Qed.

Lemma resolve_outcome_first_wins (self : GRPS) (n0 n1 : Z) :
  0 ≤ n0 < n self → 0 ≤ n1 < n self →
  ∃ w, _resolve_outcome self n0 n1 = Ok w ∧ (n0 = w ↔ beats (n0, n1)).
Proof.
  intros H0 H1. eexists. split; [by apply resolve_outcome_in_range|].
  unfold beats, tie. simpl. repeat case_decide; lia.
Qed.

Lemma elem_of_range (N i : Z) : i ∈ range N ↔ 0 ≤ i < N.
Proof. unfold range. rewrite elem_of_seqZ. lia. Qed.

Lemma get_edge_indices_edges (self : GRPS) :
  get_edge_indices self = Ok (edges (n self)).
Proof.
  unfold get_edge_indices, edges. apply comprehension_filter.
  intros [i j] [Hi Hj]%elem_of_product. simpl.
  apply elem_of_range in Hi, Hj.
  destruct (resolve_outcome_first_wins self i j) as (w & -> & Hw); [done..|].
  simpl. f_equal. apply bool_decide_ext. done.
Qed.

Lemma elem_of_edges (N : Z) (e : Z * Z) :
  e ∈ edges N ↔ (0 ≤ e.1 < N ∧ 0 ≤ e.2 < N) ∧ beats e.
Proof.
  unfold edges. destruct e as [i j].
  rewrite list_elem_of_filter, elem_of_product, !elem_of_range. simpl. tauto.
Qed.

Lemma beats_asym (i j : Z) : i ≠ j → (beats (i, j) ↔ ¬ beats (j, i)).
Proof. unfold beats. simpl. lia. Qed.

Lemma NoDup_range (N : Z) : NoDup (range N).
Proof. apply NoDup_seqZ. Qed.

Lemma length_range (N : Z) : 0 ≤ N → Z.of_nat (length (range N)) = N.
Proof. intros HN. unfold range. rewrite length_seqZ. lia. Qed.

Lemma range_of_nat (N : Z) : 0 ≤ N → range N = seqZ 0 (Z.of_nat (Z.to_nat N)).
Proof. intros HN. unfold range. by rewrite Z2Nat.id. Qed.

(** In a game of odd size every row of the product holds [(N-1)/2]
    counters, and so does every column. *)
Lemma row_count (N i : Z) :
  valid_size N → 0 ≤ i < N →
  Z.of_nat (length (filter (λ j, beats (i, j)) (range N))) = (N - 1) `div` 2.
Proof.
  intros [HN Hodd] Hi. rewrite range_of_nat by lia.
  rewrite count_beaten_below by lia. rewrite Z2Nat.id by lia.
  rewrite decide_False by lia. lia.
Qed.

Lemma column_count (N i : Z) :
  valid_size N → 0 ≤ i < N →
  Z.of_nat (length (filter (λ a, beats (a, i)) (range N))) = (N - 1) `div` 2.
Proof.
  intros [HN Hodd] Hi. rewrite range_of_nat by lia.
  rewrite count_beating_below by lia. rewrite Z2Nat.id by lia.
  rewrite decide_False by lia. lia.
Qed.

Lemma out_degree_edges (N i : Z) :
  0 ≤ i < N →
  out_degree (edges N) i = length (filter (λ j, beats (i, j)) (range N)).
Proof.
  intros Hi. unfold out_degree, edges.
  rewrite list_filter_filter, length_filter_product.
  rewrite (sum_list_single _ i).
  - f_equal. apply list_filter_iff. intros j. simpl. tauto.
  - apply NoDup_range.
  - by apply elem_of_range.
  - intros a _ Ha. rewrite filter_none; [done|]. intros j _ [? _]. done.
Qed.

Lemma in_degree_edges (N i : Z) :
  0 ≤ i < N →
  in_degree (edges N) i = length (filter (λ a, beats (a, i)) (range N)).
Proof.
  intros Hi. unfold in_degree, edges.
  rewrite list_filter_filter, length_filter_product.
  rewrite <- sum_list_indicator. f_equal. apply list_fmap_ext.
  intros _ a _. cbn beta.
  etrans; [|exact (length_filter_at (λ b, beats (a, b)) i (range N)
                     (NoDup_range N) (proj2 (elem_of_range N i) Hi))].
  reflexivity.
Qed.

Lemma length_edges (N : Z) :
  valid_size N → Z.of_nat (length (edges N)) = (N * (N - 1)) `div` 2.
Proof.
  intros HN. unfold edges. rewrite length_filter_product.
  rewrite (sum_list_const _ (Z.to_nat ((N - 1) `div` 2))).
  - destruct HN as [HN Hodd]. rewrite Nat2Z.inj_mul, length_range by lia.
    rewrite Z2Nat.id by lia.
    assert (N - 1 = 2 * ((N - 1) `div` 2)) as Hk by lia.
    rewrite Hk at 2.
    replace (N * (2 * ((N - 1) `div` 2))) with (N * ((N - 1) `div` 2) * 2)
      by lia.
    by rewrite Z.div_mul.
  - intros a Ha%elem_of_range. simpl.
    rewrite <- (row_count N a) by done. by rewrite Nat2Z.id.
Qed.

(** ** The constructor, the setters and the invariant *)

Lemma int_truediv2_exact (a : Z) :
  0 ≤ a < 2 ^ 53 → int_truediv2 a = Ok (a `div` 2).
Proof.
  intros Ha. unfold int_truediv2, int_truediv2_nonneg.
  rewrite !bool_decide_eq_true_2 by lia.
  by rewrite Z.quot_div_nonneg by lia.
Qed.

Lemma round_half_even_ge (q r half : Z) : q ≤ round_half_even q r half.
Proof. unfold round_half_even. repeat case_bool_decide; try destruct (Z.even q); lia. Qed.

Lemma int_truediv2_large (a v : Z) :
  2 ^ 53 ≤ a → int_truediv2 a = Ok v → 2 ^ 52 ≤ v.
Proof.
  intros Ha. unfold int_truediv2, int_truediv2_nonneg.
  rewrite (bool_decide_eq_true_2 (0 ≤ a)) by lia.
  rewrite (bool_decide_eq_false_2 (a < 2 ^ 53)) by lia.
  cbv zeta. case_bool_decide; [|done]. intros [= <-].
  assert (53 ≤ Z.log2 a) as HL.
  { rewrite <- (Z.log2_pow2 53) by lia. apply Z.log2_le_mono. done. }
  set (s := Z.log2 a - 52) in *.
  assert (2 ^ 52 ≤ a ≫ s) as Hq.
  { rewrite Z.shiftr_div_pow2 by lia.
    apply Z.div_le_lower_bound; [apply Z.pow_pos_nonneg; lia|].
    rewrite <- Z.pow_add_r by lia. replace (s + 52) with (Z.log2 a) by lia.
    apply Z.log2_spec. lia. }
  pose proof (round_half_even_ge (a ≫ s) (a `mod` 2 ^ s) (2 ^ (s - 1))) as Hr.
  assert (1 ≤ 2 ^ (s - 1)) as Hp.
  { assert (0 < 2 ^ (s - 1)) by (apply Z.pow_pos_nonneg; lia). lia. }
  nia.
Qed.

Lemma init_Ok (n0 : Z) (g : GRPS) :
  __init__ n0 = Ok g →
  valid_size n0 ∧ int_truediv2 (n0 * (n0 - 1)) = Ok (ne g) ∧ n g = n0 ∧
  _node_names g = None ∧ _edge_verbs g = None.
Proof.
  unfold __init__, valid_size.
  intros (ne0 & Hne & H1)%bind_Ok.
  apply bind_Ok in H1 as ([] & Hgt%assert_Ok%bool_decide_eq_true & H2).
  apply bind_Ok in H2 as ([] & Hodd%assert_Ok%bool_decide_eq_true & Hg).
  injection Hg as <-. done.
Qed.

Lemma init_valid (n0 : Z) :
  valid_size n0 → n0 * (n0 - 1) < 2 ^ 53 →
  __init__ n0 = Ok {| n := n0; ne := (n0 * (n0 - 1)) `div` 2;
                      _edge_verbs := None; _node_names := None |}.
Proof.
  intros [Hgt Hodd] Hsmall. unfold __init__.
  rewrite int_truediv2_exact by (split; [nia|lia]).
  rewrite (assert_true (n0 > 2)) by done.
  rewrite (assert_true (n0 `mod` 2 = 1)) by done. reflexivity.
Qed.

Lemma length_remove_dups_le (l : list string) :
  (length (remove_dups l) ≤ length l)%nat.
Proof.
  induction l as [|x l IH]; simpl; [done|].
  case_decide; simpl; lia.
Qed.

Lemma length_remove_dups_NoDup (l : list string) :
  length (remove_dups l) = length l → NoDup l.
Proof.
  induction l as [|x l IH]; simpl; [constructor|].
  pose proof (length_remove_dups_le l).
  case_decide; simpl; [lia|]. intros [= Hl]. constructor; auto.
Qed.

Lemma len_set_NoDup (value : list string) :
  len_set value = len value ↔ NoDup value.
Proof.
  unfold len_set, len. split.
  - assert (list_to_set (C := gset string) value
            = list_to_set (remove_dups value)) as ->.
    { apply set_eq. intros x.
      by rewrite !elem_of_list_to_set, elem_of_remove_dups. }
    rewrite size_list_to_set by apply NoDup_remove_dups.
    intros Hl. apply length_remove_dups_NoDup. lia.
  - intros Hnd. by rewrite size_list_to_set.
Qed.

Lemma node_names_setter_Ok (value : list string) (g : GRPS) :
  len value = n g → NoDup value →
  node_names_setter value g = (Ok (), with_names g value).
Proof.
  intros Hlen Hnd. unfold node_names_setter.
  rewrite assert_true by done.
  rewrite assert_true by (by apply len_set_NoDup). done.
Qed.

Lemma node_names_setter_Raise (value : list string) (g : GRPS) :
  len value ≠ n g ∨ ¬ NoDup value →
  node_names_setter value g = (Raise AssertionError, g).
Proof.
  intros Hbad. unfold node_names_setter.
  destruct (decide (len value = n g)) as [Hlen|Hlen].
  - rewrite assert_true by done. destruct Hbad as [?|Hnd]; [done|].
    rewrite assert_false by (by rewrite len_set_NoDup). done.
  - rewrite assert_false by done. done.
Qed.

Lemma edge_verbs_setter_Ok (value : gmap (Z * Z) string) (g : GRPS) :
  Z.of_nat (size value) = ne g →
  edge_verbs_setter value g = (Ok (), with_verbs g value).
Proof. intros Hsz. unfold edge_verbs_setter. by rewrite assert_true. Qed.

Lemma edge_verbs_setter_Raise (value : gmap (Z * Z) string) (g : GRPS) :
  Z.of_nat (size value) ≠ ne g →
  edge_verbs_setter value g = (Raise AssertionError, g).
Proof. intros Hsz. unfold edge_verbs_setter. by rewrite assert_false. Qed.

Lemma reachable_well_formed (g : GRPS) : reachable g → well_formed g.
Proof.
  induction 1 as [n0 g Hinit|value g r g' _ IH Hset|value g r g' _ IH Hset].
  - apply init_Ok in Hinit as (Hv & Hne & Hn & Hnames & Hverbs).
    unfold well_formed, names_ok, verbs_ok.
    rewrite Hn, Hnames, Hverbs. done.
  - destruct (decide (len value = n g ∧ NoDup value)) as [[Hlen Hnd]|Hbad].
    + rewrite node_names_setter_Ok in Hset by done.
      injection Hset as _ <-. destruct IH as (? & ? & ? & ?).
      unfold well_formed, names_ok. simpl. done.
    + rewrite node_names_setter_Raise in Hset.
      * by injection Hset as _ <-.
      * destruct (decide (len value = n g)); [right|left]; tauto.
  - destruct (decide (Z.of_nat (size value) = ne g)) as [Hsz|Hsz].
    + rewrite edge_verbs_setter_Ok in Hset by done.
      injection Hset as _ <-. destruct IH as (? & ? & ? & ?).
      unfold well_formed, verbs_ok. simpl. done.
    + rewrite edge_verbs_setter_Raise in Hset by done.
      by injection Hset as _ <-.
Qed.

(** The stored edge count against [N(N-1)/2]. *)
Lemma ne_exact (g : GRPS) :
  well_formed g → (n g * (n g - 1)) `div` 2 < dict_capacity →
  ne g = (n g * (n g - 1)) `div` 2.
Proof.
  intros ([Hgt Hodd] & Hne & _) Hsmall. unfold dict_capacity in Hsmall.
  rewrite int_truediv2_exact in Hne by (split; [nia|lia]).
  by injection Hne.
Qed.

Lemma ne_beyond_capacity (g : GRPS) :
  well_formed g → dict_capacity ≤ (n g * (n g - 1)) `div` 2 →
  dict_capacity ≤ ne g.
Proof.
  intros ([Hgt Hodd] & Hne & _) Hlarge. unfold dict_capacity in *.
  apply (int_truediv2_large _ _) in Hne; [done|]. lia.
Qed.

(** ** Properties of the resolver and of the edge enumeration *)

Lemma same_parity_mod (a b : Z) : same_parity a b ↔ a `mod` 2 = b `mod` 2.
Proof.
  unfold same_parity, Z.Even, Z.Odd. split.
  - intros [[[x ->] [y ->]]|[[x ->] [y ->]]]; lia.
  - intros Hab. destruct (decide (a `mod` 2 = 0)) as [Ha|Ha].
    + left. split; [exists (a `div` 2)|exists (b `div` 2)]; lia.
    + right. split; [exists (a `div` 2)|exists (b `div` 2)]; lia.
Qed.

(** C1. In a game of size [N], for indices [n0], [n1] of [0..N-1] the
    resolver returns the tie value when they are equal, the larger index
    when they are both even or both odd, and the smaller index otherwise. *)
Theorem resolve_outcome_parity_rule (self : GRPS) (n0 n1 : Z) :
  0 ≤ n0 < n self → 0 ≤ n1 < n self →
  (n0 = n1 → _resolve_outcome self n0 n1 = Ok tie) ∧
  (n0 ≠ n1 → same_parity n0 n1 →
     _resolve_outcome self n0 n1 = Ok (Z.max n0 n1)) ∧
  (n0 ≠ n1 → ¬ same_parity n0 n1 →
     _resolve_outcome self n0 n1 = Ok (Z.min n0 n1)).
Proof.
  intros H0 H1. rewrite resolve_outcome_in_range by done.
  rewrite same_parity_mod. repeat split; intros; repeat case_decide; done.
Qed.

Lemma resolve_outcome_parity_rule_witness :
  _resolve_outcome (bare 5 10) 4 2 = Ok 4 ∧
  _resolve_outcome (bare 5 10) 1 4 = Ok 1 ∧
  _resolve_outcome (bare 5 10) 3 3 = Ok (-1).
Proof.
  split; [|split].
  - refine (proj1 (proj2 (resolve_outcome_parity_rule (bare 5 10) 4 2 _ _)) _ _);
      [simpl; lia|simpl; lia|lia|].
    left. split; [by exists 2|by exists 1].
  - refine (proj2 (proj2 (resolve_outcome_parity_rule (bare 5 10) 1 4 _ _)) _ _);
      [simpl; lia|simpl; lia|lia|].
    rewrite same_parity_mod. done.
  - refine (proj1 (resolve_outcome_parity_rule (bare 5 10) 3 3 _ _) _);
      [simpl; lia|simpl; lia|done].
Defined.

(** C2. In a game of valid size [N] (odd, at least 3) the enumeration
    returns a list that holds, for any two distinct indices [i], [j] of
    [0..N-1], exactly one of [(i, j)] and [(j, i)], and the list has
    [N(N-1)/2] entries. *)
Theorem get_edge_indices_tournament (self : GRPS) :
  valid_size (n self) →
  ∃ E, get_edge_indices self = Ok E ∧
    (∀ i j, 0 ≤ i < n self → 0 ≤ j < n self → i ≠ j →
       ((i, j) ∈ E ∧ ¬ (j, i) ∈ E) ∨ (¬ (i, j) ∈ E ∧ (j, i) ∈ E)) ∧
    Z.of_nat (length E) = (n self * (n self - 1)) `div` 2.
Proof.
  intros HN. exists (edges (n self)).
  split; [apply get_edge_indices_edges|]. split; [|by apply length_edges].
  intros i j Hi Hj Hij. rewrite !elem_of_edges. simpl.
  pose proof (beats_asym i j Hij) as Hasym.
  destruct (decide (beats (i, j))) as [Hb|Hb]; [left|right].
  - split; [done|]. intros [_ Hji]. by apply Hasym in Hb.
  - split; [by intros [_ ?]|]. split; [done|].
    destruct (decide (beats (j, i))) as [|Hji]; [done|].
    by apply Hasym in Hji.
Qed.

Lemma get_edge_indices_tournament_witness :
  ∃ E, get_edge_indices (bare 3 3) = Ok E ∧
    (∀ i j, 0 ≤ i < 3 → 0 ≤ j < 3 → i ≠ j →
       ((i, j) ∈ E ∧ ¬ (j, i) ∈ E) ∨ (¬ (i, j) ∈ E ∧ (j, i) ∈ E)) ∧
    Z.of_nat (length E) = 3.
Proof.
  apply (get_edge_indices_tournament (bare 3 3)).
  split; reflexivity.
Defined.

(** C3. In a game of valid size [N], every index of [0..N-1] has as many
    outgoing as incoming edges in the enumerated list, [(N-1)/2] of each. *)
Theorem get_edge_indices_degrees (self : GRPS) (i : Z) :
  valid_size (n self) → 0 ≤ i < n self →
  ∃ E, get_edge_indices self = Ok E ∧
    out_degree E i = in_degree E i ∧
    Z.of_nat (out_degree E i) = (n self - 1) `div` 2 ∧
    Z.of_nat (in_degree E i) = (n self - 1) `div` 2.
Proof.
  intros HN Hi. exists (edges (n self)).
  split; [apply get_edge_indices_edges|].
  pose proof (row_count _ _ HN Hi) as Hout.
  pose proof (column_count _ _ HN Hi) as Hin.
  rewrite <- out_degree_edges in Hout by done.
  rewrite <- in_degree_edges in Hin by done.
  split; [lia|done].
Qed.

Lemma get_edge_indices_degrees_witness :
  ∃ E, get_edge_indices (bare 5 10) = Ok E ∧
    out_degree E 3 = in_degree E 3 ∧
    Z.of_nat (out_degree E 3) = 2 ∧ Z.of_nat (in_degree E 3) = 2.
Proof.
  apply (get_edge_indices_degrees (bare 5 10) 3).
  - split; reflexivity.
  - simpl. lia.
Defined.

(** C4. The edges enumerated for a valid size [N] are all among the edges
    enumerated for size [N+2]; they are exactly those edges of the larger
    game whose two indices are below [N]. *)
Theorem get_edge_indices_subgraph (small large : GRPS) :
  valid_size (n small) → n large = n small + 2 →
  ∃ E E', get_edge_indices small = Ok E ∧ get_edge_indices large = Ok E' ∧
    (∀ e, e ∈ E → e ∈ E') ∧
    (∀ e, e ∈ E → e.1 < n small ∧ e.2 < n small) ∧
    (∀ e, e ∈ E' → e.1 < n small → e.2 < n small → e ∈ E).
Proof.
  intros HN Hlarge. exists (edges (n small)), (edges (n large)).
  rewrite !get_edge_indices_edges. rewrite Hlarge.
  split; [done|]. split; [done|]. split; [|split].
  - intros e [[H1 H2] Hb]%elem_of_edges. apply elem_of_edges.
    split; [lia|done].
  - intros e [[H1 H2] Hb]%elem_of_edges. lia.
  - intros e [[H1 H2] Hb]%elem_of_edges Hlt1 Hlt2. apply elem_of_edges.
    split; [lia|done].
Qed.

Lemma get_edge_indices_subgraph_witness :
  ∃ E E', get_edge_indices (bare 3 3) = Ok E ∧
    get_edge_indices (bare 5 10) = Ok E' ∧
    (∀ e, e ∈ E → e ∈ E') ∧
    (∀ e, e ∈ E → e.1 < 3 ∧ e.2 < 3) ∧
    (∀ e, e ∈ E' → e.1 < 3 → e.2 < 3 → e ∈ E).
Proof.
  apply (get_edge_indices_subgraph (bare 3 3) (bare 5 10)).
  - split; reflexivity.
  - reflexivity.
Defined.

(** ** Properties of the configuration *)

(** C7. Assigning names raises exactly when the sequence has not [N]
    entries or has a repeated entry; [["a"; "a"; "b"]] is refused by a game
    of size 3.  A refused assignment leaves the object as it was, an
    accepted one replaces the stored names by the given sequence and
    touches nothing else. *)
Theorem node_names_setter_validates (self : GRPS) (value : list string) :
  (raises (node_names_setter value self).1
     ↔ len value ≠ n self ∨ ¬ NoDup value) ∧
  (raises (node_names_setter value self).1
     → (node_names_setter value self).2 = self) ∧
  (returns (node_names_setter value self).1
     → (node_names_setter value self).2 = with_names self value) ∧
  (n self = 3 → raises (node_names_setter ["a"; "a"; "b"] self).1).
Proof.
  assert (∀ v, len v ≠ n self ∨ ¬ NoDup v →
               raises (node_names_setter v self).1) as Hbad.
  { intros v Hv. by rewrite node_names_setter_Raise. }
  destruct (decide (len value = n self ∧ NoDup value)) as [[Hlen Hnd]|Hno].
  - rewrite node_names_setter_Ok by done. simpl.
    repeat split; try done; try tauto.
    intros _. apply Hbad. right. intros [Hn _]%NoDup_cons. apply Hn. left.
  - assert (len value ≠ n self ∨ ¬ NoDup value) as Hv.
    { destruct (decide (len value = n self)); [right|left]; tauto. }
    rewrite node_names_setter_Raise by done. simpl.
    repeat split; try done.
    intros _. apply Hbad. right. intros [Hn _]%NoDup_cons. apply Hn. left.
Qed.

(** C8. On a game built by the constructor and the setters, asking for
    the named edges raises exactly when no names are stored; with names
    stored the answer lists, edge by edge and in the order of the edge
    enumeration, the edge [(i, j)] with the pair [(names[i], names[j])]. *)
Theorem get_named_edge_indices_names (self : GRPS) :
  reachable self →
  (raises (get_named_edge_indices self) ↔ _node_names self = None) ∧
  (∀ names, _node_names self = Some names →
     ∃ E L, get_edge_indices self = Ok E ∧
       get_named_edge_indices self = Ok L ∧
       length L = length E ∧
       ∀ k i j, E !! k = Some (i, j) →
         ∃ a b, names !! Z.to_nat i = Some a ∧ names !! Z.to_nat j = Some b ∧
                L !! k = Some ((i, j), (a, b))).
Proof.
  intros (_ & _ & Hnames & _)%reachable_well_formed.
  unfold names_ok in Hnames. unfold get_named_edge_indices.
  destruct (_node_names self) as [names|]; [|simpl; split; [done|]; intros ? [=]].
  destruct Hnames as [Hlen _]. rewrite get_edge_indices_edges. simpl.
  set (h := λ p : Z * Z,
         (p, (names !!! Z.to_nat p.1, names !!! Z.to_nat p.2))).
  rewrite (map__fmap _ h).
  - simpl. split; [split; [done|intros [=]]|].
    intros ? [= <-]. exists (edges (n self)), (h <$> edges (n self)).
    repeat split; [by rewrite length_fmap|].
    intros k i j Hk. 
    assert ((i, j) ∈ edges (n self)) as [[Hi Hj] _]%elem_of_edges.
    { apply list_elem_of_lookup. eauto. }
    simpl in Hi, Hj.
    destruct (lookup_lt_is_Some_2 names (Z.to_nat i)) as [a Ha];
      [unfold len in Hlen; lia|].
    destruct (lookup_lt_is_Some_2 names (Z.to_nat j)) as [b Hb];
      [unfold len in Hlen; lia|].
    exists a, b. rewrite list_lookup_fmap, Hk. simpl. unfold h. simpl.
    by rewrite (list_lookup_total_correct _ _ _ Ha),
         (list_lookup_total_correct _ _ _ Hb).
  - intros [i j] [[Hi Hj] _]%elem_of_edges. simpl in *.
    destruct (getitem_lookup names i) as (a & -> & Ha); [lia|].
    destruct (getitem_lookup names j) as (b & -> & Hb); [lia|].
    simpl. unfold h. simpl.
    by rewrite (list_lookup_total_correct _ _ _ Ha),
         (list_lookup_total_correct _ _ _ Hb).
Qed.

Lemma get_named_edge_indices_names_witness :
  (raises (get_named_edge_indices (with_names (bare 3 3) classic_names))
     ↔ Some classic_names = None) ∧
  (∀ names, Some classic_names = Some names →
     ∃ E L, get_edge_indices (with_names (bare 3 3) classic_names) = Ok E ∧
       get_named_edge_indices (with_names (bare 3 3) classic_names) = Ok L ∧
       length L = length E ∧
       ∀ k i j, E !! k = Some (i, j) →
         ∃ a b, names !! Z.to_nat i = Some a ∧ names !! Z.to_nat j = Some b ∧
                L !! k = Some ((i, j), (a, b))).
Proof.
  apply (get_named_edge_indices_names (with_names (bare 3 3) classic_names)).
  apply (reach_names classic_names (bare 3 3) (Ok ())).
  - apply (reach_init 3). reflexivity.
  - reflexivity.
Defined.

(** ** Properties of the match engine *)

(** C9. Played with two integers, [play] raises exactly when one of them
    is outside [0..N-1]; with both inside it returns what the resolver
    gives for them, together with the two indices, and prints nothing.
    [play(5)] on a game of size 3 raises, whatever would have been drawn
    for the second move. *)
Theorem play_int_range (self : GRPS) (i j r : Z) :
  (raises (play self (Int i) (Some (Int j)) r).1
     ↔ ¬ (0 ≤ i < n self ∧ 0 ≤ j < n self)) ∧
  (0 ≤ i < n self ∧ 0 ≤ j < n self →
     ∃ w, _resolve_outcome self i j = Ok w ∧
          play self (Int i) (Some (Int j)) r = (Ok (Tuple w (i, j)), [])) ∧
  (n self = 3 → raises (play self (Int 5) None r).1).
Proof.
  split; [|split]; [| |intros HN; unfold play, _play_int; cbn [mbind res_bind];
    by rewrite (assert_false (0 ≤ 5 < n self)) by lia];
    unfold play, _play_int; simpl.
  - destruct (decide (0 ≤ i < n self)) as [Hi|Hi].
    + rewrite (assert_true (0 ≤ i < n self)) by done. simpl.
      destruct (decide (0 ≤ j < n self)) as [Hj|Hj].
      * rewrite (assert_true (0 ≤ j < n self)) by done. simpl.
        rewrite resolve_outcome_in_range by done. simpl. tauto.
      * rewrite (assert_false (0 ≤ j < n self)) by done. simpl. tauto.
    + rewrite (assert_false (0 ≤ i < n self)) by done. simpl. tauto.
  - intros [Hi Hj]. rewrite !assert_true by done. simpl.
    rewrite resolve_outcome_in_range by done. simpl. eauto.
Qed.

(** ** The verb dictionary *)

Lemma size_row_zero_verbs (k : Z) :
  0 ≤ k → Z.of_nat (size (row_zero_verbs k)) = k.
Proof.
  intros Hk. unfold row_zero_verbs. rewrite map_size_list_to_map.
  - rewrite length_fmap, length_seqZ. lia.
  - rewrite <- list_fmap_compose.
    apply (NoDup_fmap_2 (λ j : Z, (0, j))), NoDup_seqZ.
Qed.

Lemma dom_row_zero_verbs (k : Z) : 0 < k → (0, 0) ∈ dom (row_zero_verbs k).
Proof.
  intros Hk. unfold row_zero_verbs.
  rewrite dom_list_to_map_L, elem_of_list_to_set, <- list_fmap_compose.
  apply list_elem_of_fmap. exists 0. split; [done|].
  apply elem_of_seqZ. lia.
Qed.

(** The rounding of the stored count shows from [N = 134217731] on:
    there [N(N-1)/2 = 9007199590285315] is odd and above [2^53], hence no
    binary64 value, and the constructor stores its even neighbour. *)
Lemma init_rounds_ne :
  __init__ 134217731 = Ok (bare 134217731 9007199590285316) ∧
  (134217731 * (134217731 - 1)) `div` 2 = 9007199590285315.
Proof. split; reflexivity. Qed.

(** Below the capacity of a dictionary the rounding cannot show: on a
    game of size [N] built by the constructor and the setters, assigning a
    verb dictionary raises exactly when its number of keys differs from the
    stored count [ne]; for every dictionary of fewer than [dict_capacity]
    entries that is exactly when the number of keys differs from
    [N(N-1)/2].  Nothing else is examined: a dictionary of [N(N-1)/2]
    entries whose keys are not the enumerated edges is accepted and
    stored. *)
Lemma edge_verbs_setter_counts_keys_only (self : GRPS) :
  reachable self →
  (∀ value, raises (edge_verbs_setter value self).1
              ↔ Z.of_nat (size value) ≠ ne self) ∧
  (∀ value, Z.of_nat (size value) < dict_capacity →
     (raises (edge_verbs_setter value self).1
        ↔ Z.of_nat (size value) ≠ (n self * (n self - 1)) `div` 2)) ∧
  ((n self * (n self - 1)) `div` 2 < dict_capacity →
     ∃ value E, get_edge_indices self = Ok E ∧
       Z.of_nat (size value) = (n self * (n self - 1)) `div` 2 ∧
       dom value ≠ list_to_set E ∧
       edge_verbs_setter value self = (Ok (), with_verbs self value)).
Proof.
  intros Hwf%reachable_well_formed.
  assert (∀ value, raises (edge_verbs_setter value self).1
                     ↔ Z.of_nat (size value) ≠ ne self) as Hexact.
  { intros value.
    destruct (decide (Z.of_nat (size value) = ne self)) as [Hsz|Hsz].
    - rewrite edge_verbs_setter_Ok by done. simpl. tauto.
    - rewrite edge_verbs_setter_Raise by done. simpl. tauto. }
  split; [done|]. split.
  - intros value Hcap. rewrite Hexact.
    destruct (decide ((n self * (n self - 1)) `div` 2 < dict_capacity))
      as [Hsmall|Hlarge].
    + by rewrite <- (ne_exact self).
    + pose proof (ne_beyond_capacity self Hwf) as Hne. split; lia.
  - intros Hsmall. pose proof (ne_exact self Hwf Hsmall) as Hne.
    destruct Hwf as ([Hgt Hodd] & _).
    assert (0 < (n self * (n self - 1)) `div` 2) as Hpos.
    { apply Z.div_str_pos. nia. }
    exists (row_zero_verbs ((n self * (n self - 1)) `div` 2)),
      (edges (n self)).
    split; [apply get_edge_indices_edges|].
    split; [apply size_row_zero_verbs; lia|]. split.
    + intros Hdom. pose proof (dom_row_zero_verbs _ Hpos) as Hin.
      rewrite Hdom, elem_of_list_to_set in Hin.
      apply elem_of_edges in Hin as [_ [Hne0 _]]. done.
    + apply edge_verbs_setter_Ok. rewrite size_row_zero_verbs by lia. done.
Qed.

Lemma edge_verbs_setter_counts_keys_only_witness :
  (∀ value, raises (edge_verbs_setter value (bare 3 3)).1
              ↔ Z.of_nat (size value) ≠ 3) ∧
  (∀ value, Z.of_nat (size value) < dict_capacity →
     (raises (edge_verbs_setter value (bare 3 3)).1
        ↔ Z.of_nat (size value) ≠ 3)) ∧
  (3 < dict_capacity →
     ∃ value E, get_edge_indices (bare 3 3) = Ok E ∧
       Z.of_nat (size value) = 3 ∧
       dom value ≠ list_to_set E ∧
       edge_verbs_setter value (bare 3 3)
       = (Ok (), with_verbs (bare 3 3) value)).
Proof.
  apply (edge_verbs_setter_counts_keys_only (bare 3 3)).
  apply (reach_init 3). reflexivity.
Defined.


(** ** Name-form play *)

Lemma index_Ok (names : list string) (x : string) (i : Z) :
  index names x = Ok i →
  0 ≤ i < len names ∧ names !! Z.to_nat i = Some x.
Proof.
  revert i. induction names as [|y names IH]; intros i; simpl; [done|].
  case_decide as Hy.
  - intros [= <-]. subst y. unfold len. simpl. split; [lia|done].
  - destruct (index names x) as [k|] eqn:Hk; simpl; [|done].
    intros [= <-]. destruct (IH k eq_refl) as [Hr Hl].
    unfold len in *. simpl. split; [lia|].
    replace (Z.to_nat (Z.succ k)) with (S (Z.to_nat k)) by lia. done.
Qed.

Lemma index_elem_of (names : list string) (x : string) :
  x ∈ names → ∃ i, index names x = Ok i.
Proof.
  induction names as [|y names IH]; intros Hx; [by apply elem_of_nil in Hx|].
  simpl. case_decide as Hy; [eauto|].
  apply elem_of_cons in Hx as [->|Hx]; [done|].
  destruct (IH Hx) as [i ->]. simpl. eauto.
Qed.

Lemma index_contains (names : list string) (x : string) (i : Z) :
  index names x = Ok i → contains names x = true.
Proof.
  intros [_ Hl]%index_Ok. unfold contains. apply bool_decide_eq_true_2.
  apply list_elem_of_lookup. eauto.
Qed.

Lemma index_getitem (names : list string) (x : string) (i : Z) :
  index names x = Ok i → getitem names i = Ok x.
Proof.
  intros [Hr Hl]%index_Ok.
  destruct (getitem_lookup names i Hr) as (y & -> & Hy). congruence.
Qed.

(** What [_play_str] returns once the names are resolved to indices. *)
Lemma play_str_explicit (self : GRPS) (names : list string)
    (a b : string) (i j w r : Z) :
  _node_names self = Some names → len names = n self →
  index names a = Ok i → index names b = Ok j →
  _resolve_outcome self i j = Ok w →
  _play_str self a (Some b) r = Ok (w, (i, j)).
Proof.
  intros Hn Hlen Ha Hb Hw. unfold _play_str, _play_int. rewrite Hn.
  rewrite (index_contains _ _ _ Ha), (index_contains _ _ _ Hb), Ha, Hb.
  apply index_Ok in Ha as [Hi _], Hb as [Hj _]. simpl.
  rewrite (assert_true (0 ≤ i < n self)) by lia. simpl.
  rewrite (assert_true (0 ≤ j < n self)) by lia. simpl.
  by rewrite Hw.
Qed.

Lemma play_str_sampled (self : GRPS) (names : list string)
    (a : string) (i j w r : Z) :
  _node_names self = Some names → len names = n self →
  index names a = Ok i → _sample_move self r = Ok j →
  _resolve_outcome self i j = Ok w →
  _play_str self a None r = Ok (w, (i, j)).
Proof.
  intros Hn Hlen Ha Hj Hw. unfold _play_str, _play_int. rewrite Hn.
  rewrite (index_contains _ _ _ Ha), Ha.
  apply index_Ok in Ha as [Hi _]. simpl.
  rewrite (assert_true (0 ≤ i < n self)) by lia. simpl.
  rewrite Hj. simpl. by rewrite Hw.
Qed.

(** The message when the first move wins, and when the second does. *)
Lemma play_msg_win (self : GRPS) (names : list string)
    (verbs : gmap (Z * Z) string) (a pc verb : string)
    (move2 : option move_t) (i j r : Z) :
  _node_names self = Some names → _edge_verbs self = Some verbs →
  match move2 with
  | Some (Str b) => b = pc ∧ _play_str self a (Some b) r = Ok (i, (i, j))
  | None => _play_str self a None r = Ok (i, (i, j))
  | Some (Int _) => False
  end →
  0 ≤ i → getitem names i = Ok a → getitem names j = Ok pc →
  verbs !! (i, j) = Some verb →
  play_msg self a move2 r
  = Ok (a +:+ " " +:+ verb +:+ " " +:+ pc +:+
        match move2 with None => ", you win!" | Some _ => ", player1 wins!" end).
Proof.
  intros Hn Hv Hplay Hi Ha Hpc Hverb. unfold play_msg. rewrite Hn, Hv.
  destruct move2 as [[k|b]|]; [done| |].
  - destruct Hplay as [-> Hplay]. simpl. rewrite Hplay. simpl.
    rewrite Ha, Hpc. simpl.
    rewrite (bool_decide_eq_false_2 (i = -1)) by lia.
    rewrite (bool_decide_eq_true_2 (i = i)) by done.
    unfold dict_getitem. rewrite Hverb. done.
  - simpl. rewrite Hplay. simpl. rewrite Ha, Hpc. simpl.
    rewrite (bool_decide_eq_false_2 (i = -1)) by lia.
    rewrite (bool_decide_eq_true_2 (i = i)) by done.
    unfold dict_getitem. rewrite Hverb. done.
Qed.

Lemma play_msg_lose (self : GRPS) (names : list string)
    (verbs : gmap (Z * Z) string) (a b verb : string) (i j r : Z) :
  _node_names self = Some names → _edge_verbs self = Some verbs →
  _play_str self a (Some b) r = Ok (j, (i, j)) →
  0 ≤ j → i ≠ j → getitem names i = Ok a → getitem names j = Ok b →
  verbs !! (j, i) = Some verb →
  play_msg self a (Some (Str b)) r
  = Ok (b +:+ " " +:+ verb +:+ " " +:+ a +:+ ", player2 wins!").
Proof.
  intros Hn Hv Hplay Hj Hij Ha Hb Hverb. unfold play_msg. rewrite Hn, Hv.
  simpl. rewrite Hplay. simpl. rewrite Ha, Hb. simpl.
  rewrite (bool_decide_eq_false_2 (j = -1)) by lia.
  rewrite (bool_decide_eq_false_2 (j = i)) by done.
  unfold dict_getitem. rewrite Hverb. done.
Qed.

Lemma resolve_outcome_cases (self : GRPS) (i j : Z) :
  0 ≤ i < n self → 0 ≤ j < n self → i ≠ j →
  (beats (i, j) ∧ _resolve_outcome self i j = Ok i) ∨
  (beats (j, i) ∧ _resolve_outcome self i j = Ok j).
Proof.
  intros Hi Hj Hij. rewrite resolve_outcome_in_range by done.
  unfold beats. simpl. rewrite decide_False by done.
  case_decide; [destruct (decide (i < j))|destruct (decide (i < j))].
  - right. split; [lia|f_equal; lia].
  - left. split; [lia|f_equal; lia].
  - left. split; [lia|f_equal; lia].
  - right. split; [lia|f_equal; lia].
Qed.

Lemma classic_game_reachable : reachable classic_game.
Proof.
  apply (reach_verbs classic_verbs (with_names (bare 3 3) classic_names)
           (Ok ())); [|reflexivity].
  apply (reach_names classic_names (bare 3 3) (Ok ())); [|reflexivity].
  apply (reach_init 3). reflexivity.
Defined.

(** C5, as the specification words it, fails: on the classic game
    [play("scissors", "paper")] prints its line and returns [None], not a
    match result; and on a game whose three verbs miss the key [(2, 0)],
    [play("c", "a")], a win of the first move, raises [KeyError]. *)
Lemma play_str_returns_no_result :
  classic = Ok classic_game ∧
  play classic_game (Str "scissors") (Some (Str "paper")) 0
  = (Ok PyNone, ["scissors cuts paper, player1 wins!"]) ∧
  ¬ returns_match_result
      (play classic_game (Str "scissors") (Some (Str "paper")) 0) ∧
  reachable skewed_game ∧
  _resolve_outcome skewed_game 2 0 = Ok 2 ∧
  play skewed_game (Str "c") (Some (Str "a")) 0 = (Raise KeyError, []).
Proof.
  split; [reflexivity|]. split; [reflexivity|]. split; [|split; [|done]].
  - intros (outcome & moves & [=]).
  - apply (reach_verbs skewed_verbs
             (with_names (bare 3 3) ["a"; "b"; "c"]) (Ok ())); [|reflexivity].
    apply (reach_names ["a"; "b"; "c"] (bare 3 3) (Ok ())); [|reflexivity].
    apply (reach_init 3). reflexivity.
Qed.

(** ** The factories *)

(** With verbs keyed by exactly the enumerated edges, a match between two
    distinct names always finds its verb. *)
Lemma play_finds_verb (self : GRPS) (names : list string)
    (verbs : gmap (Z * Z) string) (a b : string) (r : Z) :
  _node_names self = Some names → _edge_verbs self = Some verbs →
  len names = n self →
  dom verbs = list_to_set (edges (n self)) →
  a ∈ names → b ∈ names → a ≠ b →
  ∃ w l verb winner loser suffix,
    (w, l) ∈ edges (n self) ∧ verbs !! (w, l) = Some verb ∧
    getitem names w = Ok winner ∧ getitem names l = Ok loser ∧
    play self (Str a) (Some (Str b)) r
    = (Ok PyNone, [winner +:+ " " +:+ verb +:+ " " +:+ loser +:+ suffix]) ∧
    ((winner = a ∧ loser = b ∧ suffix = ", player1 wins!") ∨
     (winner = b ∧ loser = a ∧ suffix = ", player2 wins!")).
Proof.
  intros Hn Hv Hlen Hdom [i Ha]%index_elem_of [j Hb]%index_elem_of Hab.
  pose proof (index_Ok _ _ _ Ha) as [Hi Hla].
  pose proof (index_Ok _ _ _ Hb) as [Hj Hlb].
  pose proof (index_getitem _ _ _ Ha) as Hga.
  pose proof (index_getitem _ _ _ Hb) as Hgb.
  assert (i ≠ j) as Hij by (intros ->; congruence).
  rewrite Hlen in Hi, Hj.
  assert (∀ w l, 0 ≤ w < n self → 0 ≤ l < n self → beats (w, l) →
                 (w, l) ∈ edges (n self) ∧ is_Some (verbs !! (w, l))) as Hedge.
  { intros w l Hw Hl Hwl.
    assert ((w, l) ∈ edges (n self)) as Hin by (by apply elem_of_edges).
    split; [done|]. apply elem_of_dom. rewrite Hdom.
    by apply elem_of_list_to_set. }
  destruct (resolve_outcome_cases self i j Hi Hj Hij) as [[Hwin Hw]|[Hwin Hw]].
  - destruct (Hedge i j Hi Hj Hwin) as [Hin [verb Hverb]].
    exists i, j, verb, a, b, ", player1 wins!".
    repeat split; try done; [|by left]. unfold play.
    rewrite (play_msg_win self names verbs a b verb (Some (Str b)) i j r);
      try done; [|lia].
    split; [done|]. by apply (play_str_explicit self names).
  - destruct (Hedge j i Hj Hi Hwin) as [Hin [verb Hverb]].
    exists j, i, verb, b, a, ", player2 wins!".
    repeat split; try done; [|by right]. unfold play.
    rewrite (play_msg_lose self names verbs a b verb i j r); try done; [|lia].
    by apply (play_str_explicit self names).
Qed.

Lemma classic_Ok : classic = Ok classic_game.
Proof. reflexivity. Qed.

Lemma spock_version_Ok : spock_version = Ok spock_game.
Proof. reflexivity. Qed.

Lemma classic_verbs_dom : dom classic_verbs = list_to_set (edges 3).
Proof. by vm_compute. Qed.

Lemma spock_verbs_dom :
  dom (spock_extra_verbs ∪ classic_verbs) = list_to_set (edges 5).
Proof. by vm_compute. Qed.

Lemma classic_names_NoDup : NoDup classic_names.
Proof. apply (bool_decide_unpack _). by vm_compute. Qed.

Lemma spock_names_NoDup : NoDup spock_names.
Proof. apply (bool_decide_unpack _). by vm_compute. Qed.

(** C10. The games built by [classic()] (size 3) and [spock_version()]
    (size 5) store verbs keyed by exactly the edges the enumeration returns
    for their size and as many distinct names as their size, so that a
    match between two distinct names of the game finds its verb. *)
Theorem factories_consistent :
  factory_consistent classic 3 ∧ factory_consistent spock_version 5.
Proof.
  split.
  - exists classic_game, classic_names, classic_verbs, (edges 3).
    split; [apply classic_Ok|]. split; [done|]. split; [done|].
    split; [done|]. split; [apply (get_edge_indices_edges classic_game)|].
    split; [apply classic_verbs_dom|]. split; [done|].
    split; [apply classic_names_NoDup|].
    intros a b r.
    exact (play_finds_verb classic_game classic_names classic_verbs a b r
             eq_refl eq_refl eq_refl classic_verbs_dom).
  - exists spock_game, spock_names, (spock_extra_verbs ∪ classic_verbs),
      (edges 5).
    split; [apply spock_version_Ok|]. split; [done|]. split; [done|].
    split; [done|]. split; [apply (get_edge_indices_edges spock_game)|].
    split; [apply spock_verbs_dom|]. split; [done|].
    split; [apply spock_names_NoDup|].
    intros a b r.
    exact (play_finds_verb spock_game spock_names
             (spock_extra_verbs ∪ classic_verbs) a b r
             eq_refl eq_refl eq_refl spock_verbs_dom).
Qed.

(** ** Further properties of the resolver and of the enumeration *)

Lemma resolve_outcome_swap (self : GRPS) (a b : Z) :
  _resolve_outcome self a b = _resolve_outcome self b a.
Proof.
  unfold _resolve_outcome.
  destruct (decide (0 ≤ a ≤ n self - 1)) as [Ha|Ha];
    destruct (decide (0 ≤ b ≤ n self - 1)) as [Hb|Hb].
  - rewrite !assert_true by done. simpl.
    repeat case_bool_decide; try done; try lia; f_equal; lia.
  - rewrite (assert_true _ Ha), (assert_false _ Hb). done.
  - rewrite (assert_false _ Ha), (assert_true _ Hb). done.
  - rewrite (assert_false _ Ha), (assert_false _ Hb). done.
Qed.

(** X1. The resolver does not depend on the order of its two arguments:
    it returns the same winner, or raises alike, for [(a, b)] and
    [(b, a)]. *)
Theorem resolve_outcome_symmetric (self : GRPS) (a b : Z) :
  _resolve_outcome self a b = _resolve_outcome self b a.
Proof. apply resolve_outcome_swap. Qed.

(** X2. The resolver returns exactly when both indices are in [0..N-1] and
    raises [AssertionError] otherwise; what it returns is the tie value if
    the two indices are equal and one of the two indices if they differ,
    never a third index. *)
Theorem resolve_outcome_winner (self : GRPS) (a b : Z) :
  (returns (_resolve_outcome self a b) ↔ 0 ≤ a < n self ∧ 0 ≤ b < n self) ∧
  (raises (_resolve_outcome self a b) →
     _resolve_outcome self a b = Raise AssertionError) ∧
  (∀ w, _resolve_outcome self a b = Ok w →
     (a = b ∧ w = tie) ∨ (a ≠ b ∧ (w = a ∨ w = b))).
Proof.
  destruct (decide (0 ≤ a < n self ∧ 0 ≤ b < n self)) as [[Ha Hb]|Hout].
  - rewrite resolve_outcome_in_range by done. simpl.
    split; [tauto|]. split; [done|]. intros w [= <-].
    repeat case_decide; [left|right|right]; split; try done; lia.
  - assert (_resolve_outcome self a b = Raise AssertionError) as ->.
    { unfold _resolve_outcome.
      destruct (decide (0 ≤ a ≤ n self - 1)) as [Ha|Ha].
      - rewrite (assert_true _ Ha). simpl.
        rewrite (assert_false (0 ≤ b ≤ n self - 1)) by lia. done.
      - rewrite (assert_false _ Ha). done. }
    simpl. split; [tauto|]. split; [done|]. intros w [=].
Qed.

(** X3. In a game of valid size no move is dominant and none is hopeless:
    every index beats some index and is beaten by some index of the
    enumerated edges. *)
Theorem every_move_wins_and_loses (self : GRPS) (i : Z) :
  valid_size (n self) → 0 ≤ i < n self →
  ∃ E j k, get_edge_indices self = Ok E ∧ (i, j) ∈ E ∧ (k, i) ∈ E.
Proof.
  intros [Hgt Hodd] Hi. exists (edges (n self)).
  exists (if decide (i + 1 < n self) then i + 1 else 0).
  exists (if decide (1 ≤ i) then i - 1 else 2).
  split; [apply get_edge_indices_edges|].
  rewrite !elem_of_edges. unfold beats. simpl.
  repeat case_decide; (split; [split; [lia|]|split; [lia|]]); lia.
Qed.

Lemma every_move_wins_and_loses_witness :
  ∃ E j k, get_edge_indices (bare 5 10) = Ok E ∧ (4, j) ∈ E ∧ (k, 4) ∈ E.
Proof.
  apply (every_move_wins_and_loses (bare 5 10) 4).
  - split; reflexivity.
  - simpl. lia.
Defined.

Lemma StronglySorted_seq (s k : nat) : StronglySorted lt (seq s k).
Proof.
  revert s. induction k as [|k IH]; intros s; simpl; constructor; [apply IH|].
  apply Forall_forall. intros x Hx%elem_of_seq. lia.
Qed.

Lemma StronglySorted_range (N : Z) : StronglySorted Z.lt (range N).
Proof.
  unfold range, seqZ.
  apply (StronglySorted_fmap _ lt); [|apply StronglySorted_seq].
  intros x y Hxy. lia.
Qed.

Lemma StronglySorted_product (l k : list Z) :
  StronglySorted Z.lt l → StronglySorted Z.lt k →
  StronglySorted row_major (product l k).
Proof.
  intros Hl Hk. induction Hl as [|a l Hl IH Ha]; [constructor|].
  rewrite product_cons. apply StronglySorted_app_2.
  - intros x1 [i j] (b & -> & _)%list_elem_of_fmap [Hi _]%elem_of_product.
    left. simpl. rewrite Forall_forall in Ha. by apply Ha.
  - apply (StronglySorted_fmap _ Z.lt); [|done].
    intros x y Hxy. right. done.
  - done.
Qed.

Lemma StronglySorted_filter {A} (R : relation A) (P : A → Prop)
    `{∀ x, Decision (P x)} (l : list A) :
  StronglySorted R l → StronglySorted R (filter P l).
Proof.
  induction 1 as [|x l Hl IH Hx]; [constructor|].
  rewrite filter_cons. case_decide; [|done].
  constructor; [done|]. rewrite Forall_forall in *.
  intros y [_ Hy]%list_elem_of_filter. by apply Hx.
Qed.

Lemma StronglySorted_NoDup {A} (R : relation A) (l : list A) :
  (∀ x, ¬ R x x) → StronglySorted R l → NoDup l.
Proof.
  intros Hirr. induction 1 as [|x l Hl IH Hx]; constructor; [|done].
  intros Hin. rewrite Forall_forall in Hx. by apply (Hirr x), Hx.
Qed.

Lemma StronglySorted_edges (N : Z) : StronglySorted row_major (edges N).
Proof.
  apply StronglySorted_filter, StronglySorted_product;
    apply StronglySorted_range.
Qed.

Lemma NoDup_edges (N : Z) : NoDup (edges N).
Proof.
  apply (StronglySorted_NoDup row_major); [|apply StronglySorted_edges].
  intros [i j]. unfold row_major. simpl. lia.
Qed.

(** X4. The enumeration lists the edges in row-major order (by winner,
    then by loser), strictly increasing, so no edge occurs twice; no edge
    joins an index to itself and every index listed is in [0..N-1]. *)
Theorem get_edge_indices_row_major (self : GRPS) :
  ∃ E, get_edge_indices self = Ok E ∧
    StronglySorted row_major E ∧ NoDup E ∧
    ∀ e, e ∈ E → e.1 ≠ e.2 ∧ 0 ≤ e.1 < n self ∧ 0 ≤ e.2 < n self.
Proof.
  exists (edges (n self)). split; [apply get_edge_indices_edges|].
  split; [apply StronglySorted_edges|]. split; [apply NoDup_edges|].
  intros e [[H1 H2] [Hne _]]%elem_of_edges. done.
Qed.

(** ** Further properties of the constructor and of the setters *)

Lemma int_truediv2_nonneg_overflow (a : Z) :
  2 ^ 1025 ≤ a → int_truediv2 a = Raise OverflowError.
Proof.
  intros Ha. unfold int_truediv2, int_truediv2_nonneg.
  assert (0 < 2 ^ 1025) by (apply Z.pow_pos_nonneg; lia).
  assert (2 ^ 53 ≤ 2 ^ 1025) by (apply Z.pow_le_mono_r; lia).
  rewrite (bool_decide_eq_true_2 (0 ≤ a)) by lia.
  rewrite (bool_decide_eq_false_2 (a < 2 ^ 53)) by lia.
  cbv zeta. rewrite bool_decide_eq_false_2; [done|].
  assert (1025 ≤ Z.log2 a) as HL.
  { rewrite <- (Z.log2_pow2 1025) by lia. by apply Z.log2_le_mono. }
  set (s := Z.log2 a - 52) in *.
  assert (2 ^ 52 ≤ a ≫ s) as Hq.
  { rewrite Z.shiftr_div_pow2 by lia.
    apply Z.div_le_lower_bound; [apply Z.pow_pos_nonneg; lia|].
    rewrite <- Z.pow_add_r by lia. replace (s + 52) with (Z.log2 a) by lia.
    apply Z.log2_spec. lia. }
  pose proof (round_half_even_ge (a ≫ s) (a `mod` 2 ^ s) (2 ^ (s - 1))) as Hr.
  assert (2 ^ 1024 ≤ 2 ^ 52 * 2 ^ (s - 1)) as Hp.
  { rewrite <- Z.pow_add_r by lia. apply Z.pow_le_mono_r; lia. }
  assert (0 < 2 ^ (s - 1)) by (apply Z.pow_pos_nonneg; lia).
  intros Hv. apply Z.lt_nge in Hv. apply Hv.
  etrans; [exact Hp|]. apply Z.mul_le_mono_nonneg_r; lia.
Qed.

(** X5. For a size whose product [n(n-1)] is below [2^53] the constructor
    returns exactly when the size is odd and above 2, and raises
    [AssertionError] otherwise; the object it returns has that size, the
    edge count [n(n-1)/2], and neither names nor verbs. *)
Theorem init_accepts_odd_sizes (n0 : Z) :
  n0 * (n0 - 1) < 2 ^ 53 →
  (valid_size n0 → __init__ n0 = Ok (bare n0 ((n0 * (n0 - 1)) `div` 2))) ∧
  (¬ valid_size n0 → __init__ n0 = Raise AssertionError).
Proof.
  intros Hsmall. split; [intros Hv; by apply init_valid|].
  intros Hbad. unfold __init__, valid_size in *.
  rewrite int_truediv2_exact by (split; [nia|lia]).
  destruct (decide (n0 > 2)) as [Hgt|Hgt].
  - rewrite (assert_true _ Hgt).
    rewrite (assert_false (n0 `mod` 2 = 1)) by tauto. done.
  - rewrite (assert_false _ Hgt). done.
Qed.

Lemma init_accepts_odd_sizes_witness :
  (valid_size 7 → __init__ 7 = Ok (bare 7 21)) ∧
  (¬ valid_size 7 → __init__ 7 = Raise AssertionError).
Proof. apply (init_accepts_odd_sizes 7). reflexivity. Defined.

(** X6. From size [2^513] on the constructor raises [OverflowError], for
    odd and even sizes alike: the float division that computes the edge
    count comes before the two assertions on the size. *)
Theorem init_overflows (n0 : Z) :
  2 ^ 513 ≤ n0 → __init__ n0 = Raise OverflowError.
Proof.
  intros Hn. unfold __init__.
  rewrite int_truediv2_nonneg_overflow; [done|].
  assert (0 < 2 ^ 513) by (apply Z.pow_pos_nonneg; lia).
  assert (2 ^ 1025 = 2 ^ 513 * 2 ^ 512) as -> by (by rewrite <- Z.pow_add_r).
  assert (2 ^ 512 ≤ 2 ^ 513 - 1).
  { assert (2 ^ 513 = 2 * 2 ^ 512) as -> by (by rewrite <- Z.pow_succ_r).
    assert (0 < 2 ^ 512) by (apply Z.pow_pos_nonneg; lia). lia. }
  apply Z.mul_le_mono_nonneg; lia.
Qed.

Lemma init_overflows_witness : __init__ (2 ^ 513 + 1) = Raise OverflowError.
Proof.
  apply (init_overflows (2 ^ 513 + 1)).
  assert (0 < 2 ^ 513) by (apply Z.pow_pos_nonneg; lia). lia.
Defined.

(** X7. Whatever calls of the two setters follow the constructor, accepted
    or refused, the object keeps the size and the edge count the constructor
    gave it, its names (if any) are as many distinct strings as the size,
    and its verbs (if any) have as many keys as the edge count. *)
Theorem reachable_invariant (g : GRPS) :
  reachable g →
  __init__ (n g) = Ok (bare (n g) (ne g)) ∧
  (∀ names, _node_names g = Some names → len names = n g ∧ NoDup names) ∧
  (∀ verbs, _edge_verbs g = Some verbs → Z.of_nat (size verbs) = ne g).
Proof.
  intros ([Hgt Hodd] & Hne & Hnames & Hverbs)%reachable_well_formed.
  split; [|split].
  - unfold __init__. rewrite Hne. simpl.
    rewrite (assert_true _ Hgt). rewrite (assert_true _ Hodd). done.
  - intros names Hn. unfold names_ok in Hnames. by rewrite Hn in Hnames.
  - intros verbs Hv. unfold verbs_ok in Hverbs. by rewrite Hv in Hverbs.
Qed.

Lemma reachable_invariant_witness :
  __init__ 3 = Ok (bare 3 3) ∧
  (∀ names, Some classic_names = Some names → len names = 3 ∧ NoDup names) ∧
  (∀ verbs, Some classic_verbs = Some verbs → Z.of_nat (size verbs) = 3).
Proof. exact (reachable_invariant classic_game classic_game_reachable). Defined.

(** X8. The two setters do not interfere: assigning names and verbs in
    either order returns or raises the same for each and leaves the same
    object.  An accepted assignment of names erases whatever an earlier
    assignment of names did. *)
Theorem setters_compose (g : GRPS) (value value' : list string)
    (verbs : gmap (Z * Z) string) :
  (node_names_setter value (edge_verbs_setter verbs g).2).1
    = (node_names_setter value g).1 ∧
  (edge_verbs_setter verbs (node_names_setter value g).2).1
    = (edge_verbs_setter verbs g).1 ∧
  (node_names_setter value (edge_verbs_setter verbs g).2).2
    = (edge_verbs_setter verbs (node_names_setter value g).2).2 ∧
  (returns (node_names_setter value' g).1 →
     node_names_setter value' (node_names_setter value g).2
     = node_names_setter value' g).
Proof.
  destruct (decide (len value = n g ∧ NoDup value)) as [[Hl Hnd]|Hbad];
    destruct (decide (Z.of_nat (size verbs) = ne g)) as [Hsz|Hsz].
  - rewrite (node_names_setter_Ok value g), (edge_verbs_setter_Ok verbs g)
      by done. simpl.
    rewrite node_names_setter_Ok, edge_verbs_setter_Ok by done. simpl.
    repeat split.
    destruct (decide (len value' = n g ∧ NoDup value')) as [[Hl' Hnd']|Hbad'].
    + by rewrite !node_names_setter_Ok by done.
    + rewrite (node_names_setter_Raise value' g); [done|].
      destruct (decide (len value' = n g)); [right|left]; tauto.
  - rewrite (node_names_setter_Ok value g), (edge_verbs_setter_Raise verbs g)
      by done. simpl.
    rewrite node_names_setter_Ok, edge_verbs_setter_Raise by done. simpl.
    repeat split.
    destruct (decide (len value' = n g ∧ NoDup value')) as [[Hl' Hnd']|Hbad'].
    + by rewrite !node_names_setter_Ok by done.
    + rewrite (node_names_setter_Raise value' g); [done|].
      destruct (decide (len value' = n g)); [right|left]; tauto.
  - assert (len value ≠ n g ∨ ¬ NoDup value) as Hv.
    { destruct (decide (len value = n g)); [right|left]; tauto. }
    rewrite (node_names_setter_Raise value g), (edge_verbs_setter_Ok verbs g)
      by done. simpl.
    rewrite node_names_setter_Raise, edge_verbs_setter_Ok by done. done.
  - assert (len value ≠ n g ∨ ¬ NoDup value) as Hv.
    { destruct (decide (len value = n g)); [right|left]; tauto. }
    rewrite (node_names_setter_Raise value g),
      (edge_verbs_setter_Raise verbs g) by done. simpl.
    rewrite node_names_setter_Raise, edge_verbs_setter_Raise by done. done.
Qed.

(** ** Further properties of the match engine *)

Lemma sample_move_Ok (self : GRPS) (r : Z) :
  0 < n self →
  _sample_move self r = Ok (r `mod` n self) ∧ 0 ≤ r `mod` n self < n self.
Proof.
  intros Hn. unfold _sample_move, randint.
  rewrite bool_decide_eq_false_2 by lia.
  replace (n self - 1 - 0 + 1) with (n self) by lia.
  split; [done|]. by apply Z.mod_pos_bound.
Qed.

(** X9. On a game built by the constructor and the setters, [play] with
    one integer raises exactly when that integer is outside [0..N-1];
    otherwise it draws an index of [0..N-1], returns the resolver's outcome
    with the pair (given, drawn) and prints nothing.  The draw may be the
    given index itself, and the result is then a tie. *)
Theorem play_int_drawn (self : GRPS) (i r : Z) :
  reachable self →
  (raises (play self (Int i) None r).1 ↔ ¬ 0 ≤ i < n self) ∧
  (0 ≤ i < n self →
     ∃ j w, _sample_move self r = Ok j ∧ 0 ≤ j < n self ∧
       _resolve_outcome self i j = Ok w ∧
       play self (Int i) None r = (Ok (Tuple w (i, j)), [])) ∧
  (0 ≤ i < n self → play self (Int i) None i = (Ok (Tuple tie (i, i)), [])).
Proof.
  intros ([Hgt _] & _)%reachable_well_formed.
  assert (∀ r', 0 ≤ i < n self →
            play self (Int i) None r'
            = (Ok (Tuple (if decide (i = r' `mod` n self) then tie
                          else if decide (i `mod` 2 = (r' `mod` n self) `mod` 2)
                               then Z.max i (r' `mod` n self)
                               else Z.min i (r' `mod` n self))
                     (i, r' `mod` n self)), [])) as Hplay.
  { intros r' Hi. destruct (sample_move_Ok self r') as [Hs Hj]; [lia|].
    unfold play, _play_int. cbn [mbind res_bind].
    rewrite (assert_true _ Hi). cbn [mbind res_bind]. rewrite Hs.
    cbn [mbind res_bind].
    rewrite resolve_outcome_in_range by done. done. }
  split; [|split].
  - destruct (decide (0 ≤ i < n self)) as [Hi|Hi].
    + rewrite Hplay by done. simpl. tauto.
    + unfold play, _play_int. cbn [mbind res_bind].
      rewrite (assert_false _ Hi). simpl. tauto.
  - intros Hi. destruct (sample_move_Ok self r) as [Hs Hj]; [lia|].
    eexists _, _. split; [exact Hs|]. split; [done|].
    split; [by apply resolve_outcome_in_range|]. by apply Hplay.
  - intros Hi. rewrite Hplay by done.
    rewrite Z.mod_small by lia. by rewrite decide_True.
Qed.

Lemma play_int_drawn_witness :
  (raises (play classic_game (Int 2) None 7).1 ↔ ¬ 0 ≤ 2 < 3) ∧
  (0 ≤ 2 < 3 →
     ∃ j w, _sample_move classic_game 7 = Ok j ∧ 0 ≤ j < 3 ∧
       _resolve_outcome classic_game 2 j = Ok w ∧
       play classic_game (Int 2) None 7 = (Ok (Tuple w (2, j)), [])) ∧
  (0 ≤ 2 < 3 → play classic_game (Int 2) None 2 = (Ok (Tuple tie (2, 2)), [])).
Proof. exact (play_int_drawn classic_game 2 7 classic_game_reachable). Defined.

Lemma contains_false (names : list string) (x : string) :
  x ∉ names → contains names x = false.
Proof. intros Hx. unfold contains. by apply bool_decide_eq_false_2. Qed.

Lemma play_str_unknown_first (self : GRPS) (names : list string)
    (a : string) (node2 : option string) (r : Z) :
  _node_names self = Some names → a ∉ names →
  _play_str self a node2 r = Raise AssertionError.
Proof.
  intros Hn Ha. unfold _play_str. rewrite Hn, (contains_false _ _ Ha). done.
Qed.

Lemma play_str_unknown_second (self : GRPS) (names : list string)
    (a b : string) (r : Z) :
  _node_names self = Some names → b ∉ names →
  _play_str self a (Some b) r = Raise AssertionError.
Proof.
  intros Hn Hb. unfold _play_str. rewrite Hn, (contains_false _ _ Hb).
  destruct (contains names a); done.
Qed.

(** X10. [play] on a name raises [AssertionError], and prints nothing,
    when the game has no names or no verbs yet, when the first or the
    second name is not one of the game's names, and when the second move is
    an integer; so does [play] on an integer whose second move is a name. *)
Theorem play_str_refusals (self : GRPS) (a : string) (r : Z) :
  (∀ move2, _node_names self = None ∨ _edge_verbs self = None →
     play self (Str a) move2 r = (Raise AssertionError, [])) ∧
  (∀ names move2, _node_names self = Some names → a ∉ names →
     play self (Str a) move2 r = (Raise AssertionError, [])) ∧
  (∀ names b, _node_names self = Some names → b ∉ names →
     play self (Str a) (Some (Str b)) r = (Raise AssertionError, [])) ∧
  (∀ k, play self (Str a) (Some (Int k)) r = (Raise AssertionError, [])) ∧
  (∀ i b, play self (Int i) (Some (Str b)) r = (Raise AssertionError, [])).
Proof.
  split; [|split; [|split; [|split]]].
  - intros move2 Hnone. unfold play, play_msg.
    destruct move2 as [[k|b]|]; [done| |];
      destruct Hnone as [-> | ->]; simpl; try done;
      destruct (_node_names self); done.
  - intros names move2 Hn Ha. unfold play, play_msg. rewrite Hn.
    destruct move2 as [[k|b]|]; [done| |];
      (destruct (_edge_verbs self); [|done]); simpl;
      by rewrite (play_str_unknown_first self names a _ r Hn Ha).
  - intros names b Hn Hb. unfold play, play_msg. rewrite Hn.
    (destruct (_edge_verbs self); [|done]); simpl.
    by rewrite (play_str_unknown_second self names a b r Hn Hb).
  - done.
  - done.
Qed.

Lemma play_msg_tie (self : GRPS) (names : list string)
    (verbs : gmap (Z * Z) string) (a pc : string)
    (move2 : option move_t) (i j r : Z) :
  _node_names self = Some names → _edge_verbs self = Some verbs →
  match move2 with
  | Some (Str b) => _play_str self a (Some b) r = Ok (-1, (i, j))
  | None => _play_str self a None r = Ok (-1, (i, j))
  | Some (Int _) => False
  end →
  getitem names i = Ok a → getitem names j = Ok pc →
  play_msg self a move2 r = Ok (pc +:+ " vs. " +:+ pc +:+ ", tie!").
Proof.
  intros Hn Hv Hplay Ha Hpc. unfold play_msg. rewrite Hn, Hv.
  destruct move2 as [[k|b]|]; [done| |]; simpl; rewrite Hplay; simpl;
    rewrite Ha, Hpc; done.
Qed.

Lemma play_msg_loss (self : GRPS) (names : list string)
    (verbs : gmap (Z * Z) string) (a pc verb : string)
    (move2 : option move_t) (i j r : Z) :
  _node_names self = Some names → _edge_verbs self = Some verbs →
  match move2 with
  | Some (Str b) => _play_str self a (Some b) r = Ok (j, (i, j))
  | None => _play_str self a None r = Ok (j, (i, j))
  | Some (Int _) => False
  end →
  0 ≤ j → i ≠ j → getitem names i = Ok a → getitem names j = Ok pc →
  verbs !! (j, i) = Some verb →
  play_msg self a move2 r
  = Ok (pc +:+ " " +:+ verb +:+ " " +:+ a +:+
        match move2 with None => ", you lose!" | Some _ => ", player2 wins!" end).
Proof.
  intros Hn Hv Hplay Hj Hij Ha Hpc Hverb. unfold play_msg. rewrite Hn, Hv.
  destruct move2 as [[k|b]|]; [done| |]; simpl; rewrite Hplay; simpl;
    rewrite Ha, Hpc; simpl;
    rewrite (bool_decide_eq_false_2 (j = -1)) by lia;
    rewrite (bool_decide_eq_false_2 (j = i)) by done;
    unfold dict_getitem; rewrite Hverb; done.
Qed.

Lemma play_msg_KeyError (self : GRPS) (names : list string)
    (verbs : gmap (Z * Z) string) (a pc : string) (move2 : option move_t)
    (i j w r : Z) :
  _node_names self = Some names → _edge_verbs self = Some verbs →
  match move2 with
  | Some (Str b) => _play_str self a (Some b) r = Ok (w, (i, j))
  | None => _play_str self a None r = Ok (w, (i, j))
  | Some (Int _) => False
  end →
  w ≠ -1 → getitem names i = Ok a → getitem names j = Ok pc →
  verbs !! (if decide (w = i) then (i, j) else (j, i)) = None →
  play_msg self a move2 r = Raise KeyError.
Proof.
  intros Hn Hv Hplay Hw Ha Hpc Hverb. unfold play_msg. rewrite Hn, Hv.
  destruct move2 as [[k|b]|]; [done| |]; simpl; rewrite Hplay; simpl;
    rewrite Ha, Hpc; simpl;
    rewrite (bool_decide_eq_false_2 (w = -1)) by done;
    (destruct (decide (w = i)) as [Hwi|Hwi];
     [rewrite (bool_decide_eq_true_2 (w = i)) by done
     |rewrite (bool_decide_eq_false_2 (w = i)) by done]);
    unfold dict_getitem; rewrite Hverb; done.
Qed.

(** C5, as the code has it. On a game built by the constructor and the
    setters, with names and verbs stored, take [play] on a known name [A]
    whose second move [B] is a known name or is drawn.  It never returns a
    match result.  If both moves are the same index it prints
    "B vs. B, tie!" and returns [None].  Otherwise the verb is read under
    (winner index, loser index): if the verbs have that entry, [play]
    prints the narrative and returns [None], and on a win of the first move
    the line is "A <verb> B, you win!" when the second move was drawn and
    "A <verb> B, player1 wins!" when it was given (on a win of the second
    move, "B <verb> A, you lose!" and "B <verb> A, player2 wins!"); if the
    verbs lack that entry, [play] raises [KeyError] and prints nothing. *)
Theorem play_str_narrative (self : GRPS) (names : list string)
    (verbs : gmap (Z * Z) string) (a b : string) (move2 : option move_t)
    (i j w r : Z) :
  reachable self →
  _node_names self = Some names → _edge_verbs self = Some verbs →
  index names a = Ok i → second_move self names move2 r j b →
  _resolve_outcome self i j = Ok w →
  ¬ returns_match_result (play self (Str a) move2 r) ∧
  (i = j →
     play self (Str a) move2 r
     = (Ok PyNone, [b +:+ " vs. " +:+ b +:+ ", tie!"])) ∧
  (w = i → ∀ verb, verbs !! (i, j) = Some verb →
     play self (Str a) move2 r
     = (Ok PyNone,
        [a +:+ " " +:+ verb +:+ " " +:+ b +:+
         match move2 with
         | None => ", you win!"
         | Some _ => ", player1 wins!"
         end])) ∧
  (w = i → verbs !! (i, j) = None →
     play self (Str a) move2 r = (Raise KeyError, [])) ∧
  (i ≠ j → w = j → ∀ verb, verbs !! (j, i) = Some verb →
     play self (Str a) move2 r
     = (Ok PyNone,
        [b +:+ " " +:+ verb +:+ " " +:+ a +:+
         match move2 with
         | None => ", you lose!"
         | Some _ => ", player2 wins!"
         end])) ∧
  (i ≠ j → w = j → verbs !! (j, i) = None →
     play self (Str a) move2 r = (Raise KeyError, [])).
Proof.
  intros Hwf%reachable_well_formed Hn Hv Ha Hsec Hw.
  destruct Hwf as ([Hgt _] & _ & Hnames & _).
  unfold names_ok in Hnames. rewrite Hn in Hnames. destruct Hnames as [Hlen _].
  pose proof (index_Ok _ _ _ Ha) as [Hi _]. rewrite Hlen in Hi.
  pose proof (index_getitem _ _ _ Ha) as Hga.
  assert (0 ≤ j < n self ∧ getitem names j = Ok b ∧
          match move2 with
          | Some (Str s) => s = b ∧ _play_str self a (Some s) r = Ok (w, (i, j))
          | None => _play_str self a None r = Ok (w, (i, j))
          | Some (Int _) => False
          end) as (Hj & Hgb & Hplay).
  { unfold second_move in Hsec. destruct move2 as [[k|s]|]; [done| |].
    - destruct Hsec as [-> Hb]. pose proof (index_Ok _ _ _ Hb) as [Hj _].
      rewrite Hlen in Hj. split; [done|]. split; [by apply index_getitem|].
      split; [done|]. by apply (play_str_explicit self names).
    - destruct Hsec as [Hs Hgb].
      destruct (sample_move_Ok self r) as [Hs' Hj]; [lia|].
      assert (j = r `mod` n self) as -> by congruence.
      split; [done|]. split; [done|]. by apply (play_str_sampled self names). }
  assert (match move2 with
          | Some (Str s) => _play_str self a (Some s) r = Ok (w, (i, j))
          | None => _play_str self a None r = Ok (w, (i, j))
          | Some (Int _) => False
          end) as Hplay'.
  { destruct move2 as [[k|s]|]; [done| |done]. by destruct Hplay. }
  rewrite resolve_outcome_in_range in Hw by done.
  split; [|split; [|split; [|split; [|split]]]].
  - intros (outcome & moves & Hret). unfold play in Hret.
    destruct (play_msg self a move2 r); discriminate Hret.
  - intros <-. rewrite decide_True in Hw by done. injection Hw as <-.
    unfold play.
    by rewrite (play_msg_tie self names verbs a b move2 i i r).
  - intros -> verb Hverb. unfold play.
    by rewrite (play_msg_win self names verbs a b verb move2 i j r) by
      (done || lia).
  - intros -> Hverb. unfold play.
    rewrite (play_msg_KeyError self names verbs a b move2 i j i r);
      try done; [lia|by rewrite decide_True].
  - intros Hij -> verb Hverb. unfold play.
    by rewrite (play_msg_loss self names verbs a b verb move2 i j r) by
      (done || lia).
  - intros Hij -> Hverb. unfold play.
    rewrite (play_msg_KeyError self names verbs a b move2 i j j r);
      try done; [lia|]. by rewrite decide_False by done.
Qed.

Lemma play_str_narrative_witness :
  play classic_game (Str "scissors") (Some (Str "paper")) 1
  = (Ok PyNone, ["scissors cuts paper, player1 wins!"]) ∧
  play classic_game (Str "scissors") None 1
  = (Ok PyNone, ["scissors cuts paper, you win!"]) ∧
  play skewed_game (Str "a") (Some (Str "c")) 1 = (Raise KeyError, []).
Proof.
  split; [|split].
  - destruct (play_str_narrative classic_game classic_names classic_verbs
                "scissors" "paper" (Some (Str "paper")) 0 1 0 1
                classic_game_reachable eq_refl eq_refl eq_refl
                (conj eq_refl eq_refl) eq_refl) as (_ & _ & Hwin & _).
    exact (Hwin eq_refl "cuts" eq_refl).
  - destruct (play_str_narrative classic_game classic_names classic_verbs
                "scissors" "paper" None 0 1 0 1
                classic_game_reachable eq_refl eq_refl eq_refl
                (conj eq_refl eq_refl) eq_refl) as (_ & _ & Hwin & _).
    exact (Hwin eq_refl "cuts" eq_refl).
  - assert (reachable skewed_game) as Hreach.
    { apply (reach_verbs skewed_verbs
               (with_names (bare 3 3) ["a"; "b"; "c"]) (Ok ()));
        [|reflexivity].
      apply (reach_names ["a"; "b"; "c"] (bare 3 3) (Ok ())); [|reflexivity].
      apply (reach_init 3). reflexivity. }
    destruct (play_str_narrative skewed_game ["a"; "b"; "c"] skewed_verbs
                "a" "c" (Some (Str "c")) 0 2 2 1
                Hreach eq_refl eq_refl eq_refl
                (conj eq_refl eq_refl) eq_refl)
      as (_ & _ & _ & _ & _ & Hmiss).
    apply Hmiss; [lia|reflexivity|reflexivity].
Defined.

Lemma index_of_lookup (names : list string) (k : nat) (x : string) :
  NoDup names → names !! k = Some x → index names x = Ok (Z.of_nat k).
Proof.
  intros Hnd. revert k. induction Hnd as [|y names Hy Hnd IH]; intros k Hk.
  - done.
  - destruct k as [|k]; simpl in *.
    + injection Hk as ->. by rewrite decide_True.
    + rewrite decide_False.
      * rewrite (IH k Hk). simpl. f_equal. lia.
      * intros ->. apply Hy. apply list_elem_of_lookup. eauto.
Qed.

(** X11. On a game with names and verbs stored, playing a known name
    against itself prints "A vs. A, tie!" and returns [None], whatever the
    verbs are keyed by; so does playing it alone when the draw is its own
    index. *)
Theorem play_str_tie (self : GRPS) (names : list string)
    (verbs : gmap (Z * Z) string) (a : string) (i r : Z) :
  reachable self →
  _node_names self = Some names → _edge_verbs self = Some verbs →
  index names a = Ok i →
  play self (Str a) (Some (Str a)) r
  = (Ok PyNone, [a +:+ " vs. " +:+ a +:+ ", tie!"]) ∧
  (_sample_move self r = Ok i →
     play self (Str a) None r = (Ok PyNone, [a +:+ " vs. " +:+ a +:+ ", tie!"])).
Proof.
  intros (_ & _ & Hnames & _)%reachable_well_formed Hn Hv Ha.
  unfold names_ok in Hnames. rewrite Hn in Hnames. destruct Hnames as [Hlen _].
  pose proof (index_Ok _ _ _ Ha) as [Hi _].
  pose proof (index_getitem _ _ _ Ha) as Hga.
  assert (_resolve_outcome self i i = Ok (-1)) as Hw.
  { rewrite resolve_outcome_in_range by lia. by rewrite decide_True. }
  split.
  - unfold play.
    rewrite (play_msg_tie self names verbs a a (Some (Str a)) i i r); try done.
    by apply (play_str_explicit self names).
  - intros Hs. unfold play.
    rewrite (play_msg_tie self names verbs a a None i i r); try done.
    by apply (play_str_sampled self names).
Qed.

Lemma play_str_tie_witness :
  play skewed_game (Str "c") (Some (Str "c")) 5
  = (Ok PyNone, ["c vs. c, tie!"]) ∧
  (_sample_move skewed_game 5 = Ok 2 →
     play skewed_game (Str "c") None 5 = (Ok PyNone, ["c vs. c, tie!"])).
Proof.
  apply (play_str_tie skewed_game ["a"; "b"; "c"] skewed_verbs "c" 2 5);
    try reflexivity.
  apply (reach_verbs skewed_verbs
           (with_names (bare 3 3) ["a"; "b"; "c"]) (Ok ())); [|reflexivity].
  apply (reach_names ["a"; "b"; "c"] (bare 3 3) (Ok ())); [|reflexivity].
  apply (reach_init 3). reflexivity.
Defined.

(** X12. On a game with names and verbs stored, when the second move beats
    the first and the verbs have an entry for (winner index, loser index),
    [play] on names prints "B <verb> A, player2 wins!" if the second move was
    given and "B <verb> A, you lose!" if it was drawn, and returns [None]. *)
Theorem play_str_lose_narrative (self : GRPS) (names : list string)
    (verbs : gmap (Z * Z) string) (a b verb : string) (i j r : Z) :
  reachable self →
  _node_names self = Some names → _edge_verbs self = Some verbs →
  index names a = Ok i → i ≠ j → _resolve_outcome self i j = Ok j →
  verbs !! (j, i) = Some verb →
  (index names b = Ok j →
     play self (Str a) (Some (Str b)) r
     = (Ok PyNone,
        [b +:+ " " +:+ verb +:+ " " +:+ a +:+ ", player2 wins!"])) ∧
  (_sample_move self r = Ok j → getitem names j = Ok b →
     play self (Str a) None r
     = (Ok PyNone, [b +:+ " " +:+ verb +:+ " " +:+ a +:+ ", you lose!"])).
Proof.
  intros Hwf%reachable_well_formed Hn Hv Ha Hij Hw Hverb.
  destruct Hwf as ([Hgt _] & _ & Hnames & _).
  unfold names_ok in Hnames. rewrite Hn in Hnames. destruct Hnames as [Hlen _].
  pose proof (index_getitem _ _ _ Ha) as Hga.
  split.
  - intros Hb. pose proof (index_Ok _ _ _ Hb) as [Hj _]. unfold play.
    rewrite (play_msg_loss self names verbs a b verb (Some (Str b)) i j r);
      try done; [by apply (play_str_explicit self names)|lia|].
    by apply index_getitem.
  - intros Hs Hgb. destruct (sample_move_Ok self r) as [Hs' Hj]; [lia|].
    assert (j = r `mod` n self) as Hjr by congruence.
    unfold play.
    rewrite (play_msg_loss self names verbs a b verb None i j r);
      try done; [by apply (play_str_sampled self names)|lia].
Qed.

Lemma play_str_lose_narrative_witness :
  play classic_game (Str "paper") (Some (Str "scissors")) 0
  = (Ok PyNone, ["scissors cuts paper, player2 wins!"]) ∧
  play classic_game (Str "paper") None 0
  = (Ok PyNone, ["scissors cuts paper, you lose!"]).
Proof.
  destruct (play_str_lose_narrative classic_game classic_names classic_verbs
              "paper" "scissors" "cuts" 1 0 0 classic_game_reachable
              eq_refl eq_refl eq_refl) as [Hexplicit Hdrawn];
    [done|reflexivity|reflexivity|].
  split; [exact (Hexplicit eq_refl)|exact (Hdrawn eq_refl eq_refl)].
Defined.

(** X13. On a game with names stored, [_play_str] on two known names
    returns the same outcome whichever of the two is given first; only the
    pair of indices is swapped. *)
Theorem play_str_swap (self : GRPS) (names : list string) (a b : string)
    (r : Z) :
  reachable self → _node_names self = Some names → a ∈ names → b ∈ names →
  ∃ w i j, _play_str self a (Some b) r = Ok (w, (i, j)) ∧
           _play_str self b (Some a) r = Ok (w, (j, i)).
Proof.
  intros (_ & _ & Hnames & _)%reachable_well_formed Hn
    [i Ha]%index_elem_of [j Hb]%index_elem_of.
  unfold names_ok in Hnames. rewrite Hn in Hnames. destruct Hnames as [Hlen _].
  pose proof (index_Ok _ _ _ Ha) as [Hi _].
  pose proof (index_Ok _ _ _ Hb) as [Hj _].
  destruct (resolve_outcome_first_wins self i j) as (w & Hw & _); [lia..|].
  exists w, i, j. split.
  - by apply (play_str_explicit self names).
  - apply (play_str_explicit self names); try done.
    by rewrite resolve_outcome_swap.
Qed.

Lemma play_str_swap_witness :
  ∃ w i j,
    _play_str spock_game "lizard" (Some "spock") 0 = Ok (w, (i, j)) ∧
    _play_str spock_game "spock" (Some "lizard") 0 = Ok (w, (j, i)).
Proof.
  apply (play_str_swap spock_game spock_names "lizard" "spock" 0).
  - apply (reach_verbs (spock_extra_verbs ∪ classic_verbs)
             (with_names (bare 5 10) spock_names) (Ok ())); [|reflexivity].
    apply (reach_names spock_names (bare 5 10) (Ok ())); [|reflexivity].
    apply (reach_init 5). reflexivity.
  - reflexivity.
  - apply (bool_decide_unpack _). by vm_compute.
  - apply (bool_decide_unpack _). by vm_compute.
Defined.

(** X14. Because stored names are distinct, looking a name up returns the
    index it was read from: on a game with names stored, for indices [i],
    [j] of [0..N-1], [names.index(names[i])] is [i], and playing the names
    at [i] and [j] is playing the indices [i] and [j]. *)
Theorem play_str_is_play_int (self : GRPS) (names : list string)
    (i j r : Z) :
  reachable self → _node_names self = Some names →
  0 ≤ i < n self → 0 ≤ j < n self →
  ∃ a b, getitem names i = Ok a ∧ getitem names j = Ok b ∧
    index names a = Ok i ∧ index names b = Ok j ∧
    _play_str self a (Some b) r = _play_int self i (Some j) r ∧
    _play_str self a None r = _play_int self i None r.
Proof.
  intros (_ & _ & Hnames & _)%reachable_well_formed Hn Hi Hj.
  unfold names_ok in Hnames. rewrite Hn in Hnames.
  destruct Hnames as [Hlen Hnd].
  destruct (getitem_lookup names i) as (a & Hga & Hla); [lia|].
  destruct (getitem_lookup names j) as (b & Hgb & Hlb); [lia|].
  pose proof (index_of_lookup names _ a Hnd Hla) as Ha.
  pose proof (index_of_lookup names _ b Hnd Hlb) as Hb.
  rewrite Z2Nat.id in Ha, Hb by lia.
  exists a, b. repeat split; try done.
  - unfold _play_str. rewrite Hn.
    rewrite (index_contains _ _ _ Ha), (index_contains _ _ _ Hb), Ha, Hb.
    done.
  - unfold _play_str. rewrite Hn.
    rewrite (index_contains _ _ _ Ha), Ha. done.
Qed.

Lemma play_str_is_play_int_witness :
  ∃ a b, getitem classic_names 2 = Ok a ∧ getitem classic_names 0 = Ok b ∧
    index classic_names a = Ok 2 ∧ index classic_names b = Ok 0 ∧
    _play_str classic_game a (Some b) 1 = _play_int classic_game 2 (Some 0) 1 ∧
    _play_str classic_game a None 1 = _play_int classic_game 2 None 1.
Proof.
  apply (play_str_is_play_int classic_game classic_names 2 0 1
           classic_game_reachable eq_refl); simpl; lia.
Defined.

(** Name-form play cannot fail once both names are known and every
    enumerated edge has a verb. *)
Lemma play_msg_covered (self : GRPS) (names : list string)
    (verbs : gmap (Z * Z) string) (a pc : string) (move2 : option move_t)
    (i j r : Z) :
  _node_names self = Some names → _edge_verbs self = Some verbs →
  len names = n self →
  (∀ e, e ∈ edges (n self) → is_Some (verbs !! e)) →
  index names a = Ok i → 0 ≤ j < n self → getitem names j = Ok pc →
  match move2 with
  | Some (Str b) => b = pc ∧ index names b = Ok j
  | None => _sample_move self r = Ok j
  | Some (Int _) => False
  end →
  ∃ msg, play_msg self a move2 r = Ok msg.
Proof.
  intros Hn Hv Hlen Hcov Ha Hj Hpc Hmove.
  pose proof (index_Ok _ _ _ Ha) as [Hi _]. rewrite Hlen in Hi.
  pose proof (index_getitem _ _ _ Ha) as Hga.
  assert (∀ w, _resolve_outcome self i j = Ok w →
            match move2 with
            | Some (Str b) => _play_str self a (Some b) r = Ok (w, (i, j))
            | None => _play_str self a None r = Ok (w, (i, j))
            | Some (Int _) => False
            end) as Hplay.
  { intros w Hw. destruct move2 as [[k|b]|]; [done| |].
    - destruct Hmove as [-> Hb]. by apply (play_str_explicit self names).
    - by apply (play_str_sampled self names). }
  destruct (decide (i = j)) as [<-|Hij].
  - eexists. apply (play_msg_tie self names verbs a pc move2 i i r);
      try done.
    apply Hplay. rewrite resolve_outcome_in_range by done.
    by rewrite decide_True.
  - destruct (resolve_outcome_cases self i j Hi Hj Hij) as [[Hb Hw]|[Hb Hw]].
    + destruct (Hcov (i, j)) as [verb Hverb]; [by apply elem_of_edges|].
      eexists.
      apply (play_msg_win self names verbs a pc verb move2 i j r);
        try done; [|lia].
      specialize (Hplay i Hw). destruct move2 as [[k|b]|]; try done.
      by destruct Hmove as [-> _].
    + destruct (Hcov (j, i)) as [verb Hverb]; [by apply elem_of_edges|].
      eexists.
      apply (play_msg_loss self names verbs a pc verb move2 i j r);
        try done; [by apply Hplay|lia].
Qed.

Lemma play_covered (self : GRPS) (names : list string)
    (verbs : gmap (Z * Z) string) (a : string) (r : Z) :
  well_formed self →
  _node_names self = Some names → _edge_verbs self = Some verbs →
  (∀ e, e ∈ edges (n self) → is_Some (verbs !! e)) →
  a ∈ names →
  (∃ msg, play self (Str a) None r = (Ok PyNone, [msg])) ∧
  (∀ b, b ∈ names →
     ∃ msg, play self (Str a) (Some (Str b)) r = (Ok PyNone, [msg])).
Proof.
  intros ([Hgt _] & _ & Hnames & _) Hn Hv Hcov [i Ha]%index_elem_of.
  unfold names_ok in Hnames. rewrite Hn in Hnames. destruct Hnames as [Hlen _].
  split.
  - destruct (sample_move_Ok self r) as [Hs Hj]; [lia|].
    destruct (getitem_lookup names (r `mod` n self)) as (pc & Hpc & _);
      [lia|].
    destruct (play_msg_covered self names verbs a pc None i _ r
                Hn Hv Hlen Hcov Ha Hj Hpc Hs) as [msg Hmsg].
    exists msg. unfold play. by rewrite Hmsg.
  - intros b [j Hb]%index_elem_of.
    pose proof (index_Ok _ _ _ Hb) as [Hj _]. rewrite Hlen in Hj.
    destruct (play_msg_covered self names verbs a b (Some (Str b)) i j r
                Hn Hv Hlen Hcov Ha Hj (index_getitem _ _ _ Hb)
                (conj eq_refl Hb)) as [msg Hmsg].
    exists msg. unfold play. by rewrite Hmsg.
Qed.

(** X15. On a game with names and verbs stored in which every enumerated
    edge has a verb, [play] on a known name never raises: alone or against
    any known name it prints one line and returns [None]. *)
Theorem play_known_names_returns (self : GRPS) (names : list string)
    (verbs : gmap (Z * Z) string) (E : list (Z * Z)) (a : string) (r : Z) :
  reachable self →
  _node_names self = Some names → _edge_verbs self = Some verbs →
  get_edge_indices self = Ok E → (∀ e, e ∈ E → is_Some (verbs !! e)) →
  a ∈ names →
  (∃ msg, play self (Str a) None r = (Ok PyNone, [msg])) ∧
  (∀ b, b ∈ names →
     ∃ msg, play self (Str a) (Some (Str b)) r = (Ok PyNone, [msg])).
Proof.
  intros Hwf%reachable_well_formed Hn Hv HE Hcov Ha.
  rewrite get_edge_indices_edges in HE. injection HE as <-.
  by apply (play_covered self names verbs).
Qed.

Lemma play_known_names_returns_witness :
  (∃ msg, play classic_game (Str "rock") None 4 = (Ok PyNone, [msg])) ∧
  (∀ b, b ∈ classic_names →
     ∃ msg, play classic_game (Str "rock") (Some (Str b)) 4
            = (Ok PyNone, [msg])).
Proof.
  apply (play_known_names_returns classic_game classic_names classic_verbs
           [(0, 1); (1, 2); (2, 0)] "rock" 4 classic_game_reachable
           eq_refl eq_refl eq_refl).
  - intros e He. apply (bool_decide_unpack _).
    revert e He. apply Forall_forall. repeat constructor.
  - apply (bool_decide_unpack _). by vm_compute.
Defined.

(** ** The labelled edges *)

Lemma get_named_edge_indices_fmap (self : GRPS) (names : list string) :
  _node_names self = Some names → len names = n self →
  get_named_edge_indices self
  = Ok ((λ e, (e, named names e)) <$> edges (n self)).
Proof.
  intros Hn Hlen. unfold get_named_edge_indices.
  rewrite Hn, get_edge_indices_edges. simpl.
  apply map__fmap. intros [i j] [[Hi Hj] _]%elem_of_edges. simpl in *.
  destruct (getitem_lookup names i) as (a & -> & Ha); [lia|].
  destruct (getitem_lookup names j) as (b & -> & Hb); [lia|].
  simpl. unfold named. simpl.
  by rewrite (list_lookup_total_correct _ _ _ Ha),
       (list_lookup_total_correct _ _ _ Hb).
Qed.

Lemma named_inj (names : list string) (N : Z) (e e' : Z * Z) :
  NoDup names → len names = N →
  e ∈ edges N → e' ∈ edges N → named names e = named names e' → e = e'.
Proof.
  intros Hnd Hlen [[H1 H2] _]%elem_of_edges [[H1' H2'] _]%elem_of_edges.
  destruct e as [i j], e' as [i' j']. unfold named, len in *. simpl in *.
  intros [= Hi Hj].
  assert (∀ x y, 0 ≤ x < N → 0 ≤ y < N →
            names !!! Z.to_nat x = names !!! Z.to_nat y → x = y) as Hinj.
  { intros x y Hx Hy Hxy.
    destruct (lookup_lt_is_Some_2 names (Z.to_nat x)) as [a Ha]; [lia|].
    destruct (lookup_lt_is_Some_2 names (Z.to_nat y)) as [b Hb]; [lia|].
    rewrite (list_lookup_total_correct _ _ _ Ha),
      (list_lookup_total_correct _ _ _ Hb) in Hxy. subst b.
    pose proof (NoDup_lookup _ _ _ _ Hnd Ha Hb). lia. }
  f_equal; by apply Hinj.
Qed.

Lemma labels_loop_Ok (verbs : gmap (Z * Z) string) (names : list string)
    (E : list (Z * Z)) (out : gmap (string * string) string) :
  (∀ e, e ∈ E → is_Some (verbs !! e)) →
  (∀ e e', e ∈ E → e' ∈ E → named names e = named names e' → e = e') →
  ∃ labels,
    labels_loop (Some verbs) ((λ e, (e, named names e)) <$> E) out
    = Ok labels ∧
    (∀ e, e ∈ E → labels !! named names e = verbs !! e) ∧
    (∀ key, (∀ e, e ∈ E → named names e ≠ key) → labels !! key = out !! key).
Proof.
  revert out. induction E as [|e E IH]; intros out Hcov Hinj.
  - exists out. split; [done|]. split; [|done].
    intros e He. by apply elem_of_nil in He.
  - destruct (Hcov e) as [v Hv]; [left|].
    destruct (IH (<[named names e := v]> out)) as (labels & Hloop & Hin & Hout).
    { intros e' He'. apply Hcov. by right. }
    { intros e1 e2 H1 H2. apply Hinj; by right. }
    exists labels. split; [|split].
    + rewrite fmap_cons. cbn [labels_loop]. destruct e as [i j]. simpl.
      unfold dict_getitem. rewrite Hv. simpl. exact Hloop.
    + intros e' [->|He']%elem_of_cons; [|by apply Hin].
      destruct (decide (e ∈ E)) as [He|He]; [by apply Hin|].
      rewrite Hout, lookup_insert_eq; [done|].
      intros e' He' Heq. apply He.
      rewrite <- (Hinj e' e); [done|by right|left|done].
    + intros key Hkey. rewrite Hout.
      * rewrite lookup_insert_ne; [done|]. apply Hkey. left.
      * intros e' He'. apply Hkey. by right.
Qed.

Lemma labels_loop_KeyError (verbs : gmap (Z * Z) string)
    (L : list ((Z * Z) * (string * string)))
    (out : gmap (string * string) string) :
  (∃ p, p ∈ L ∧ verbs !! p.1 = None) →
  labels_loop (Some verbs) L out = Raise KeyError.
Proof.
  revert out. induction L as [|[[i j] v] L IH]; intros out (p & Hp & Hnone).
  - by apply elem_of_nil in Hp.
  - cbn [labels_loop]. simpl. unfold dict_getitem.
    destruct (verbs !! (i, j)) as [verb|] eqn:Hv; [|done]. simpl.
    apply IH. exists p. split; [|done].
    apply elem_of_cons in Hp as [->|Hp]; [|done]. simpl in Hnone. congruence.
Qed.

(** X16. On a game with names and verbs stored in which every enumerated
    edge has a verb, [get_nx_edge_labels] returns a dictionary with one
    entry per enumerated edge: the pair of names of the edge [(i, j)] is
    mapped to the verb stored for [(i, j)], and there is no other key. *)
Theorem get_nx_edge_labels_by_name (self : GRPS) (names : list string)
    (verbs : gmap (Z * Z) string) (E : list (Z * Z)) :
  reachable self →
  _node_names self = Some names → _edge_verbs self = Some verbs →
  get_edge_indices self = Ok E → (∀ e, e ∈ E → is_Some (verbs !! e)) →
  ∃ labels, get_nx_edge_labels self = Ok labels ∧
    size labels = length E ∧
    (∀ i j, (i, j) ∈ E →
       ∃ a b, getitem names i = Ok a ∧ getitem names j = Ok b ∧
              labels !! (a, b) = verbs !! (i, j)) ∧
    (∀ key, is_Some (labels !! key) → ∃ e, e ∈ E ∧ named names e = key).
Proof.
  intros (_ & _ & Hnames & _)%reachable_well_formed Hn Hv HE Hcov.
  unfold names_ok in Hnames. rewrite Hn in Hnames.
  destruct Hnames as [Hlen Hnd].
  rewrite get_edge_indices_edges in HE. injection HE as <-.
  pose proof (λ e e', named_inj names (n self) e e' Hnd Hlen) as Hinj.
  destruct (labels_loop_Ok verbs names (edges (n self)) ∅ Hcov Hinj)
    as (labels & Hloop & Hin & Hout).
  assert (∀ key, is_Some (labels !! key) →
            ∃ e, e ∈ edges (n self) ∧ named names e = key) as Hdom.
  { intros key Hkey.
    destruct (decide (Exists (λ e, named names e = key) (edges (n self))))
      as [(e & He & Heq)%Exists_exists|Hno]; [eauto|].
    rewrite Hout in Hkey; [by destruct Hkey|].
    intros e He Heq. apply Hno, Exists_exists. eauto. }
  exists labels. split; [|split; [|split]].
  - unfold get_nx_edge_labels.
    rewrite (get_named_edge_indices_fmap self names Hn Hlen), Hv. exact Hloop.
  - assert (dom labels = list_to_set (named names <$> edges (n self))) as Hd.
    { apply set_eq. intros key.
      rewrite elem_of_dom, elem_of_list_to_set, list_elem_of_fmap. split.
      - intros (e & He & Heq)%Hdom. eauto.
      - intros (e & -> & He). rewrite Hin by done. by apply Hcov. }
    rewrite <- size_dom, Hd, size_list_to_set, length_fmap; [done|].
    apply NoDup_fmap_2_strong; [|apply NoDup_edges].
    intros e e' He He'. by apply Hinj.
  - intros i j Hij. pose proof Hij as [[Hi Hj] _]%elem_of_edges.
    simpl in Hi, Hj.
    destruct (getitem_lookup names i) as (a & Hga & Ha); [lia|].
    destruct (getitem_lookup names j) as (b & Hgb & Hb); [lia|].
    exists a, b. split; [done|]. split; [done|].
    rewrite <- (Hin (i, j)) by done. unfold named. simpl.
    by rewrite (list_lookup_total_correct _ _ _ Ha),
         (list_lookup_total_correct _ _ _ Hb).
  - exact Hdom.
Qed.

Lemma get_nx_edge_labels_by_name_witness :
  ∃ labels, get_nx_edge_labels classic_game = Ok labels ∧
    size labels = length [(0, 1); (1, 2); (2, 0)] ∧
    (∀ i j, (i, j) ∈ [(0, 1); (1, 2); (2, 0)] →
       ∃ a b, getitem classic_names i = Ok a ∧ getitem classic_names j = Ok b ∧
              labels !! (a, b) = classic_verbs !! (i, j)) ∧
    (∀ key, is_Some (labels !! key) →
       ∃ e, e ∈ [(0, 1); (1, 2); (2, 0)] ∧ named classic_names e = key).
Proof.
  apply (get_nx_edge_labels_by_name classic_game classic_names classic_verbs
           [(0, 1); (1, 2); (2, 0)] classic_game_reachable
           eq_refl eq_refl eq_refl).
  intros e He. apply (bool_decide_unpack _).
  revert e He. apply Forall_forall. repeat constructor.
Defined.

(** X17. [get_nx_edge_labels] raises the exception of
    [get_named_edge_indices] when the game has no names; on a game with
    names stored it raises [TypeError] when there are no verbs, and
    [KeyError] when the verbs lack the key of some enumerated edge. *)
Theorem get_nx_edge_labels_refusals (self : GRPS) :
  reachable self →
  (_node_names self = None →
     get_nx_edge_labels self = Raise (Exception_ "node_names are None")) ∧
  (is_Some (_node_names self) → _edge_verbs self = None →
     get_nx_edge_labels self = Raise TypeError) ∧
  (∀ verbs E e, is_Some (_node_names self) → _edge_verbs self = Some verbs →
     get_edge_indices self = Ok E → e ∈ E → verbs !! e = None →
     get_nx_edge_labels self = Raise KeyError).
Proof.
  intros ([Hgt Hodd] & _ & Hnames & _)%reachable_well_formed.
  unfold names_ok in Hnames. split; [|split].
  - intros Hn. unfold get_nx_edge_labels, get_named_edge_indices.
    by rewrite Hn.
  - intros [names Hn] Hv. rewrite Hn in Hnames. destruct Hnames as [Hlen _].
    unfold get_nx_edge_labels.
    rewrite (get_named_edge_indices_fmap self names Hn Hlen), Hv.
    assert ((0, 1) ∈ edges (n self)) as Hin.
    { apply elem_of_edges. unfold beats. simpl. split; [lia|].
      split; [done|]. right. done. }
    destruct (edges (n self)) as [|[i j] E]; [by apply elem_of_nil in Hin|].
    done.
  - intros verbs E e [names Hn] Hv HE He Hnone.
    rewrite Hn in Hnames. destruct Hnames as [Hlen _].
    rewrite get_edge_indices_edges in HE. injection HE as <-.
    unfold get_nx_edge_labels.
    rewrite (get_named_edge_indices_fmap self names Hn Hlen), Hv. simpl.
    apply labels_loop_KeyError. exists (e, named names e).
    split; [|done]. apply list_elem_of_fmap. eauto.
Qed.

Lemma get_nx_edge_labels_refusals_witness :
  (_node_names skewed_game = None →
     get_nx_edge_labels skewed_game = Raise (Exception_ "node_names are None")) ∧
  (is_Some (_node_names skewed_game) → _edge_verbs skewed_game = None →
     get_nx_edge_labels skewed_game = Raise TypeError) ∧
  (∀ verbs E e, is_Some (_node_names skewed_game) →
     _edge_verbs skewed_game = Some verbs →
     get_edge_indices skewed_game = Ok E → e ∈ E → verbs !! e = None →
     get_nx_edge_labels skewed_game = Raise KeyError).
Proof.
  apply (get_nx_edge_labels_refusals skewed_game).
  apply (reach_verbs skewed_verbs
           (with_names (bare 3 3) ["a"; "b"; "c"]) (Ok ())); [|reflexivity].
  apply (reach_names ["a"; "b"; "c"] (bare 3 3) (Ok ())); [|reflexivity].
  apply (reach_init 3). reflexivity.
Defined.

(** ** The interactive builder *)

Lemma filled_cons (dct : gmap (Z * Z) string) (key : Z * Z)
    (keys : list (Z * Z)) (line : string) (lines : list string) :
  filled dct (key :: keys) (line :: lines)
  = filled (<[key := line]> dct) keys lines.
Proof. done. Qed.

Lemma filled_lookup_other (dct : gmap (Z * Z) string) (keys : list (Z * Z))
    (lines : list string) (key : Z * Z) :
  key ∉ keys → filled dct keys lines !! key = dct !! key.
Proof.
  revert dct lines. induction keys as [|key0 keys IH]; intros dct lines Hkey.
  - done.
  - destruct lines as [|line lines]; [done|].
    apply not_elem_of_cons in Hkey as [Hne Hkey].
    rewrite filled_cons, IH by done. by rewrite lookup_insert_ne.
Qed.

Lemma filled_lookup (dct : gmap (Z * Z) string) (keys : list (Z * Z))
    (lines : list string) (k : nat) (key : Z * Z) :
  NoDup keys → keys !! k = Some key → is_Some (lines !! k) →
  filled dct keys lines !! key = lines !! k.
Proof.
  intros Hnd. revert dct lines k.
  induction Hnd as [|key0 keys Hkey0 Hnd IH]; intros dct lines k Hk Hline.
  - done.
  - destruct lines as [|line lines]; [by destruct Hline|].
    rewrite filled_cons. destruct k as [|k]; simpl in *.
    + injection Hk as ->.
      by rewrite filled_lookup_other, lookup_insert_eq.
    + by apply IH.
Qed.

Lemma filled_dom (dct : gmap (Z * Z) string) (keys : list (Z * Z))
    (lines : list string) :
  (length keys ≤ length lines)%nat →
  dom (filled dct keys lines) = dom dct ∪ list_to_set keys.
Proof.
  revert dct lines. induction keys as [|key keys IH]; intros dct lines Hlen.
  - unfold filled. simpl. by rewrite (right_id_L ∅ (∪)).
  - destruct lines as [|line lines]; [simpl in Hlen; lia|].
    rewrite filled_cons, IH by (simpl in Hlen; lia).
    rewrite dom_insert_L, list_to_set_cons.
    by rewrite (assoc_L (∪)), (comm_L (∪) (dom dct)).
Qed.

Lemma builder_events_step (ne_ : Z) (m : nat) (i j : Z) (n0 n1 : string)
    (ei : list ((Z * Z) * (string * string))) (out : list out_event) :
  ((out ++
    [Printed ("edge #" +:+ pretty (Z.of_nat (S m)) +:+ "/" +:+ pretty ne_ +:+
              ": " +:+ pretty i +:+ " -> " +:+ pretty j +:+ ", " +:+ n0 +:+
              " vs. " +:+ n1)]) ++
   [Prompted ("enter the verb for " +:+ n0 +:+ " -> " +:+ n1)]) ++
  mjoin (imap (λ k, builder_events ne_ (S m + k)) ei)
  = out ++ mjoin (imap (λ k, builder_events ne_ (m + k))
                    ((i, j, (n0, n1)) :: ei)).
Proof.
  rewrite imap_cons. cbn [mjoin list_join].
  rewrite <- !app_assoc. f_equal.
  assert (builder_events ne_ (m + 0) (i, j, (n0, n1))
          = [Printed ("edge #" +:+ pretty (Z.of_nat (S m)) +:+ "/" +:+
                      pretty ne_ +:+ ": " +:+ pretty i +:+ " -> " +:+
                      pretty j +:+ ", " +:+ n0 +:+ " vs. " +:+ n1);
             Prompted ("enter the verb for " +:+ n0 +:+ " -> " +:+ n1)]) as ->.
  { unfold builder_events. cbn [fst snd]. rewrite Nat.add_0_r.
    replace (Z.of_nat m + 1) with (Z.of_nat (S m)) by lia. done. }
  cbn [app]. do 2 f_equal. f_equal. apply imap_ext.
  intros k p _. simpl. by rewrite Nat.add_succ_r.
Qed.

Lemma builder_loop_Ok (ne_ : Z) (ei : list ((Z * Z) * (string * string)))
    (m : nat) (dct : gmap (Z * Z) string) (stdin : list string)
    (out : list out_event) :
  (length ei ≤ length stdin)%nat →
  builder_loop ne_ ei (Z.of_nat m) dct stdin out
  = (IoOk (filled dct ei.*1 stdin), drop (length ei) stdin,
     out ++ mjoin (imap (λ k, builder_events ne_ (m + k)) ei)).
Proof.
  revert m dct stdin out.
  induction ei as [|[[i j] [n0 n1]] ei IH]; intros m dct stdin out Hlen.
  - simpl. by rewrite app_nil_r.
  - destruct stdin as [|line stdin]; [simpl in Hlen; lia|].
    cbn [builder_loop].
    replace (Z.of_nat m + 1) with (Z.of_nat (S m)) by lia.
    rewrite IH by (simpl in Hlen; lia).
    rewrite builder_events_step. done.
Qed.

Lemma builder_loop_EOF (ne_ : Z) (ei : list ((Z * Z) * (string * string)))
    (m : nat) (dct : gmap (Z * Z) string) (stdin : list string)
    (out : list out_event) :
  (length stdin < length ei)%nat →
  builder_loop ne_ ei (Z.of_nat m) dct stdin out
  = (IoRaise EOFError, [],
     out ++ mjoin (imap (λ k, builder_events ne_ (m + k))
                     (take (S (length stdin)) ei))).
Proof.
  revert m dct stdin out.
  induction ei as [|[[i j] [n0 n1]] ei IH]; intros m dct stdin out Hlen.
  - simpl in Hlen. lia.
  - cbn [builder_loop].
    replace (Z.of_nat m + 1) with (Z.of_nat (S m)) by lia.
    destruct stdin as [|line stdin].
    + cbn [length take]. rewrite <- (builder_events_step ne_ m i j n0 n1 []).
      simpl. by rewrite app_nil_r.
    + rewrite IH by (simpl in Hlen; lia).
      cbn [length]. rewrite firstn_cons. by rewrite builder_events_step.
Qed.

Lemma named_edges_fst (names : list string) (E : list (Z * Z)) :
  ((λ e, (e, named names e)) <$> E).*1 = E.
Proof. rewrite <- list_fmap_compose. apply list_fmap_id. Qed.

(** The builder on a game with names stored whose edge count is exact and
    whose input has a line for every edge. *)
Lemma edge_verb_builder_Ok (self : GRPS) (names : list string)
    (stdin : list string) :
  well_formed self → _node_names self = Some names →
  (n self * (n self - 1)) `div` 2 < dict_capacity →
  (length (edges (n self)) ≤ length stdin)%nat →
  edge_verb_builder self stdin
  = (IoOk (), with_verbs self (filled ∅ (edges (n self)) stdin),
     drop (length (edges (n self))) stdin,
     mjoin (imap (builder_events (ne self))
              ((λ e, (e, named names e)) <$> edges (n self)))
     ++ [Printed "Your game is now complete."]) ∧
  edge_verbs_setter (filled ∅ (edges (n self)) stdin) self
  = (Ok (), with_verbs self (filled ∅ (edges (n self)) stdin)).
Proof.
  intros Hwf Hn Hsmall Hlen.
  pose proof (ne_exact self Hwf Hsmall) as Hne.
  destruct Hwf as (Hv & _ & Hnames & _).
  unfold names_ok in Hnames. rewrite Hn in Hnames.
  destruct Hnames as [Hlenn _].
  assert (edge_verbs_setter (filled ∅ (edges (n self)) stdin) self
          = (Ok (), with_verbs self (filled ∅ (edges (n self)) stdin)))
    as Hset.
  { apply edge_verbs_setter_Ok.
    rewrite <- size_dom, filled_dom, dom_empty_L, (left_id_L ∅ (∪)) by done.
    rewrite size_list_to_set by apply NoDup_edges.
    by rewrite length_edges, Hne. }
  split; [|done]. unfold edge_verb_builder.
  rewrite Hn, (get_named_edge_indices_fmap self names Hn Hlenn).
  rewrite (builder_loop_Ok _ _ 0) by (by rewrite length_fmap).
  rewrite named_edges_fst, length_fmap, Hset. done.
Qed.

(** Where the stored count is not the number of enumerated edges, the
    builder cannot succeed: it reads a line for every edge and then fails
    the assertion of the setter it assigns through. *)
Lemma edge_verb_builder_rounded (self : GRPS) (names : list string)
    (stdin : list string) :
  well_formed self → _node_names self = Some names →
  ne self ≠ (n self * (n self - 1)) `div` 2 →
  (length (edges (n self)) ≤ length stdin)%nat →
  edge_verb_builder self stdin
  = (IoRaise (PyExn AssertionError), self,
     drop (length (edges (n self))) stdin,
     mjoin (imap (builder_events (ne self))
              ((λ e, (e, named names e)) <$> edges (n self)))).
Proof.
  intros (Hv & _ & Hnames & _) Hn Hne Hlen.
  unfold names_ok in Hnames. rewrite Hn in Hnames.
  destruct Hnames as [Hlenn _].
  unfold edge_verb_builder.
  rewrite Hn, (get_named_edge_indices_fmap self names Hn Hlenn).
  rewrite (builder_loop_Ok _ _ 0) by (by rewrite length_fmap).
  rewrite named_edges_fst, length_fmap.
  rewrite edge_verbs_setter_Raise; [done|].
  rewrite <- size_dom, filled_dom, dom_empty_L, (left_id_L ∅ (∪)) by done.
  rewrite size_list_to_set by apply NoDup_edges.
  rewrite length_edges by done. congruence.
Qed.

(** X18. On a game with names stored (and an edge count below the
    capacity of a dictionary), given at least one input line per enumerated
    edge, [edge_verb_builder] announces and prompts for the edges in the
    order of the enumeration, reads one line per edge and leaves the rest,
    stores as verbs the dictionary that maps the [k]-th edge to the [k]-th
    line and has no other key, prints the closing line and returns. *)
Theorem edge_verb_builder_fills (self : GRPS) (names : list string)
    (E : list (Z * Z)) (stdin : list string) :
  reachable self → _node_names self = Some names →
  (n self * (n self - 1)) `div` 2 < dict_capacity →
  get_edge_indices self = Ok E → (length E ≤ length stdin)%nat →
  ∃ L verbs,
    get_named_edge_indices self = Ok L ∧ L.*1 = E ∧
    edge_verb_builder self stdin
    = (IoOk (), with_verbs self verbs, drop (length E) stdin,
       mjoin (imap (builder_events (ne self)) L)
       ++ [Printed "Your game is now complete."]) ∧
    dom verbs = list_to_set E ∧
    (∀ k e, E !! k = Some e → verbs !! e = stdin !! k).
Proof.
  intros Hwf%reachable_well_formed Hn Hsmall HE Hlen.
  rewrite get_edge_indices_edges in HE. injection HE as <-.
  pose proof Hwf as (_ & _ & Hnames & _).
  unfold names_ok in Hnames. rewrite Hn in Hnames.
  destruct Hnames as [Hlenn _].
  exists ((λ e, (e, named names e)) <$> edges (n self)),
    (filled ∅ (edges (n self)) stdin).
  split; [by apply get_named_edge_indices_fmap|].
  split; [apply named_edges_fst|].
  split; [by apply edge_verb_builder_Ok|]. split.
  - by rewrite filled_dom, dom_empty_L, (left_id_L ∅ (∪)).
  - intros k e Hk. apply filled_lookup; [apply NoDup_edges|done|].
    apply lookup_lt_is_Some_2. apply lookup_lt_Some in Hk. lia.
Qed.

Lemma edge_verb_builder_fills_witness :
  ∃ L verbs,
    get_named_edge_indices (with_names (bare 3 3) classic_names) = Ok L ∧
    L.*1 = [(0, 1); (1, 2); (2, 0)] ∧
    edge_verb_builder (with_names (bare 3 3) classic_names)
      ["cuts"; "wraps"; "smashes"; "unread"]
    = (IoOk (), with_verbs (with_names (bare 3 3) classic_names) verbs,
       drop (length [(0, 1); (1, 2); (2, 0)])
         ["cuts"; "wraps"; "smashes"; "unread"],
       mjoin (imap (builder_events 3) L)
       ++ [Printed "Your game is now complete."]) ∧
    dom verbs = list_to_set [(0, 1); (1, 2); (2, 0)] ∧
    (∀ k e, [(0, 1); (1, 2); (2, 0)] !! k = Some e →
            verbs !! e = ["cuts"; "wraps"; "smashes"; "unread"] !! k).
Proof.
  apply (edge_verb_builder_fills (with_names (bare 3 3) classic_names)
           classic_names [(0, 1); (1, 2); (2, 0)]
           ["cuts"; "wraps"; "smashes"; "unread"]).
  - apply (reach_names classic_names (bare 3 3) (Ok ())); [|reflexivity].
    apply (reach_init 3). reflexivity.
  - reflexivity.
  - reflexivity.
  - reflexivity.
  - simpl. lia.
Defined.

(** X19. [edge_verb_builder] on a game without names raises its exception
    at once, reading and writing nothing.  On a game with names stored, if
    the input ends before every enumerated edge has its line, it raises
    [EOFError] after the prompt it could not get an answer to: the input is
    used up, and the object is unchanged, the lines read being lost. *)
Theorem edge_verb_builder_refusals (self : GRPS) (stdin : list string) :
  reachable self →
  (_node_names self = None →
     edge_verb_builder self stdin
     = (IoRaise (PyExn (Exception_ "please define the list of node names first")),
        self, stdin, [])) ∧
  (∀ E, is_Some (_node_names self) → get_edge_indices self = Ok E →
     (length stdin < length E)%nat →
     ∃ L, get_named_edge_indices self = Ok L ∧ L.*1 = E ∧
       edge_verb_builder self stdin
       = (IoRaise EOFError, self, [],
          mjoin (imap (builder_events (ne self))
                   (take (S (length stdin)) L)))).
Proof.
  intros (_ & _ & Hnames & _)%reachable_well_formed. split.
  - intros Hn. unfold edge_verb_builder. by rewrite Hn.
  - intros E [names Hn] HE Hlen.
    rewrite get_edge_indices_edges in HE. injection HE as <-.
    unfold names_ok in Hnames. rewrite Hn in Hnames.
    destruct Hnames as [Hlenn _].
    exists ((λ e, (e, named names e)) <$> edges (n self)).
    split; [by apply get_named_edge_indices_fmap|].
    split; [apply named_edges_fst|].
    unfold edge_verb_builder.
    rewrite Hn, (get_named_edge_indices_fmap self names Hn Hlenn).
    rewrite (builder_loop_EOF _ _ 0) by (by rewrite length_fmap). done.
Qed.

Lemma edge_verb_builder_refusals_witness :
  (_node_names (with_names (bare 3 3) classic_names) = None →
     edge_verb_builder (with_names (bare 3 3) classic_names) ["cuts"]
     = (IoRaise (PyExn (Exception_ "please define the list of node names first")),
        with_names (bare 3 3) classic_names, ["cuts"], [])) ∧
  (∀ E, is_Some (_node_names (with_names (bare 3 3) classic_names)) →
     get_edge_indices (with_names (bare 3 3) classic_names) = Ok E →
     (length ["cuts"] < length E)%nat →
     ∃ L, get_named_edge_indices (with_names (bare 3 3) classic_names) = Ok L ∧
       L.*1 = E ∧
       edge_verb_builder (with_names (bare 3 3) classic_names) ["cuts"]
       = (IoRaise EOFError, with_names (bare 3 3) classic_names, [],
          mjoin (imap (builder_events 3) (take (S (length ["cuts"])) L)))).
Proof.
  apply (edge_verb_builder_refusals (with_names (bare 3 3) classic_names)
           ["cuts"]).
  apply (reach_names classic_names (bare 3 3) (Ok ())); [|reflexivity].
  apply (reach_init 3). reflexivity.
Defined.

(** X20. A game configured by [edge_verb_builder] is ready to play: after
    a run of the builder that returns (names stored, edge count below the
    capacity of a dictionary, a line per edge), [play] on a known name,
    alone or against any known name, prints one line and returns. *)
Theorem edge_verb_builder_then_play (self : GRPS) (names : list string)
    (E : list (Z * Z)) (stdin : list string) (a : string) (r : Z) :
  reachable self → _node_names self = Some names →
  (n self * (n self - 1)) `div` 2 < dict_capacity →
  get_edge_indices self = Ok E → (length E ≤ length stdin)%nat →
  a ∈ names →
  ∃ built out rest,
    edge_verb_builder self stdin = (IoOk (), built, rest, out) ∧
    reachable built ∧
    (∃ msg, play built (Str a) None r = (Ok PyNone, [msg])) ∧
    (∀ b, b ∈ names →
       ∃ msg, play built (Str a) (Some (Str b)) r = (Ok PyNone, [msg])).
Proof.
  intros Hreach Hn Hsmall HE Hlen Ha.
  pose proof (reachable_well_formed _ Hreach) as Hwf.
  rewrite get_edge_indices_edges in HE. injection HE as <-.
  destruct (edge_verb_builder_Ok self names stdin Hwf Hn Hsmall Hlen)
    as [Hbuild Hset].
  eexists _, _, _. split; [exact Hbuild|].
  assert (reachable (with_verbs self (filled ∅ (edges (n self)) stdin)))
    as Hreach' by (by eapply reach_verbs).
  split; [done|].
  apply (play_covered _ names (filled ∅ (edges (n self)) stdin));
    [by apply reachable_well_formed|done|done| |done].
  intros e He. cbn [with_verbs n] in He.
  apply elem_of_dom.
  rewrite filled_dom, dom_empty_L, (left_id_L ∅ (∪)) by done.
  by apply elem_of_list_to_set.
Qed.

Lemma edge_verb_builder_then_play_witness :
  ∃ built out rest,
    edge_verb_builder (with_names (bare 3 3) classic_names)
      ["cuts"; "wraps"; "smashes"] = (IoOk (), built, rest, out) ∧
    reachable built ∧
    (∃ msg, play built (Str "paper") None 2 = (Ok PyNone, [msg])) ∧
    (∀ b, b ∈ classic_names →
       ∃ msg, play built (Str "paper") (Some (Str b)) 2 = (Ok PyNone, [msg])).
Proof.
  apply (edge_verb_builder_then_play (with_names (bare 3 3) classic_names)
           classic_names [(0, 1); (1, 2); (2, 0)]
           ["cuts"; "wraps"; "smashes"] "paper" 2).
  - apply (reach_names classic_names (bare 3 3) (Ok ())); [|reflexivity].
    apply (reach_init 3). reflexivity.
  - reflexivity.
  - reflexivity.
  - reflexivity.
  - simpl. lia.
  - apply (bool_decide_unpack _). by vm_compute.
Defined.

(** ** The third factory *)

Lemma the_office_version_Ok : the_office_version = Ok office_game.
Proof. reflexivity. Qed.

Lemma office_verbs_dom : dom office_verbs = list_to_set (edges 7).
Proof. by vm_compute. Qed.

Lemma office_names_NoDup : NoDup office_names.
Proof. apply (bool_decide_unpack _). by vm_compute. Qed.

(** X21. The game built by [the_office_version()] (size 7) stores verbs
    keyed by exactly the 21 edges the enumeration returns for size 7 and
    seven distinct names, so that a match between two distinct names of the
    game finds its verb. *)
Theorem the_office_version_consistent :
  factory_consistent the_office_version 7.
Proof.
  exists office_game, office_names, office_verbs, (edges 7).
  split; [apply the_office_version_Ok|]. split; [done|]. split; [done|].
  split; [done|]. split; [apply (get_edge_indices_edges office_game)|].
  split; [apply office_verbs_dom|]. split; [done|].
  split; [apply office_names_NoDup|].
  intros a b r.
  exact (play_finds_verb office_game office_names office_verbs a b r
           eq_refl eq_refl eq_refl office_verbs_dom).
Qed.
